(** * The elastic thread pool of goethe (utilities/pool_impl.go)

    A shallow embedding of the pool: its record of fields, the critical
    sections that run under the pool mutex as functions on that record,
    the worker and monitor loops as small-step machines over their
    program points, and the interleaving of client calls, workers and
    monitors as a labelled transition system. *)

From Stdlib Require Import ZArith Lia.
From stdpp Require Import gmap strings list.

Local Open Scope Z_scope.

(** ** Machine integers *)

(** Go's [int32]: a Z with its two's complement wrap-around written out. *)
Module Int32.
Definition min_int : Z := - 2 ^ 31.
Definition max_int : Z := 2 ^ 31 - 1.

Definition in_range (z : Z) : Prop := min_int <= z <= max_int.

Definition wrap (z : Z) : Z := (z + 2 ^ 31) mod 2 ^ 32 - 2 ^ 31.

(** [x++] and [x--] on an int32 variable. *)
Definition incr (z : Z) : Z := wrap (z + 1).
Definition decr (z : Z) : Z := wrap (z - 1).
End Int32.

(** ** Collaborators referenced through interfaces *)

(** A value of a Go interface type is [nil] or refers to an implementing
    object; objects are told apart by a handle.  [None] is the nil
    interface value. *)
Definition handle := nat.
Definition FunctionQueue := option handle.
Definition ErrorQueue := option handle.

(** [time.Duration] is an int64 count of nanoseconds. *)
Definition Duration := Z.

(** ** The pool record *)

Definition WAITING : Z := 0.
Definition RUNNING : Z := 1.

Record threadPool := mkThreadPool {
  name : string;
  started : bool;
  closed : bool;
  minThreads : Z;
  maxThreads : Z;
  idleDecay : Duration;
  functionalQueue : FunctionQueue;
  errorQueue : ErrorQueue;
  currentThreads : Z;
  threadState : gmap Z Z
}.

Definition set_started (b : bool) (p : threadPool) : threadPool :=
  mkThreadPool (name p) b (closed p) (minThreads p) (maxThreads p)
    (idleDecay p) (functionalQueue p) (errorQueue p) (currentThreads p)
    (threadState p).

Definition set_closed (b : bool) (p : threadPool) : threadPool :=
  mkThreadPool (name p) (started p) b (minThreads p) (maxThreads p)
    (idleDecay p) (functionalQueue p) (errorQueue p) (currentThreads p)
    (threadState p).

Definition set_currentThreads (n : Z) (p : threadPool) : threadPool :=
  mkThreadPool (name p) (started p) (closed p) (minThreads p) (maxThreads p)
    (idleDecay p) (functionalQueue p) (errorQueue p) n (threadState p).

Definition set_threadState (ts : gmap Z Z) (p : threadPool) : threadPool :=
  mkThreadPool (name p) (started p) (closed p) (minThreads p) (maxThreads p)
    (idleDecay p) (functionalQueue p) (errorQueue p) (currentThreads p) ts.

(** ** Construction *)

(** The four [fmt.Errorf] results of [NewThreadPool], with the numbers
    each message is formatted with. *)
Inductive ctor_error :=
| ErrMinBelowZero (min : Z)
| ErrMaxBelowOne (max : Z)
| ErrMinLessThanMax (min max : Z)
| ErrNoFunctionalQueue.

(** The pair [(goethe.Pool, error)]: exactly one side is nil. *)
Inductive result (A E : Type) :=
| Ok (a : A)
| Err (e : E).
Arguments Ok {A E} a.
Arguments Err {A E} e.

Definition NewThreadPool (nm : string) (min max : Z) (idle : Duration)
    (fq : FunctionQueue) (eq : ErrorQueue) : result threadPool ctor_error :=
  if min <? 0 then Err (ErrMinBelowZero min)
  else if max <? 1 then Err (ErrMaxBelowOne max)
  else if min <? max then Err (ErrMinLessThanMax min max)
  else match fq with
       | None => Err ErrNoFunctionalQueue
       | Some _ =>
           Ok {| name := nm; started := false; closed := false;
                 minThreads := min; maxThreads := max; idleDecay := idle;
                 functionalQueue := fq; errorQueue := eq;
                 currentThreads := 0; threadState := ∅ |}
       end.

Definition is_ok {A E} (r : result A E) : bool :=
  match r with Ok _ => true | Err _ => false end.

(** ** Accessors and the critical sections of the client interface *)

Definition IsStarted (p : threadPool) : bool := started p.
Definition IsClosed (p : threadPool) : bool := closed p.
Definition GetName (p : threadPool) : string := name p.
Definition GetMinThreads (p : threadPool) : Z := minThreads p.
Definition GetMaxThreads (p : threadPool) : Z := maxThreads p.
Definition GetIdleDecayDuration (p : threadPool) : Duration := idleDecay p.
Definition GetCurrentThreadCount (p : threadPool) : Z := currentThreads p.
Definition GetFunctionQueue (p : threadPool) : FunctionQueue := functionalQueue p.
Definition GetErrorQueue (p : threadPool) : ErrorQueue := errorQueue p.

Definition Close (p : threadPool) : threadPool := set_closed true p.

(** What [GoWithArgs] is handed: the worker body or the monitor body. *)
Inductive task := threadRunner_task | monitor_task.

Global Instance task_eq_dec : EqDecision task.
Proof. solve_decision. Defined.

(** The loop of [Start]: [lcv] counts from 0 while [lcv < minThreads];
    every round hands one worker to [GoWithArgs] and increments
    [currentThreads].  [n] is the number of rounds left. *)
Fixpoint start_loop (n : nat) (p : threadPool) (spawned : list task)
    : threadPool * list task :=
  match n with
  | O => (p, spawned)
  | S n' =>
      start_loop n'
        (set_currentThreads (Int32.incr (currentThreads p)) p)
        (spawned ++ [threadRunner_task])
  end.

(** [Start]: the new pool state, the tasks handed to [GoWithArgs] in
    order, and the returned error ([None] is nil). *)
Definition Start (p : threadPool)
    : threadPool * list task * option ctor_error :=
  let '(p1, spawned) := start_loop (Z.to_nat (minThreads p)) p [] in
  (set_started true p1, spawned ++ [monitor_task], None).

(** ** The monitor's growth step *)

(** The range loop over [threadState]: false as soon as one entry is
    WAITING.  The answer does not depend on the iteration order. *)
Definition allBusy (ts : gmap Z Z) : bool :=
  forallb (fun kv : Z * Z => negb (kv.2 =? WAITING)) (map_to_list ts).

(** [monitorOnce], given the answer of [functionalQueue.IsEmpty()]. *)
Definition monitorOnce (isEmpty : bool) (p : threadPool)
    : threadPool * list task :=
  if isEmpty then (p, [])
  else if currentThreads p >? maxThreads p then (p, [])
  else if allBusy (threadState p) then
    (set_currentThreads (Int32.incr (currentThreads p)) p, [threadRunner_task])
  else (p, []).

(** ** The map helpers *)

Definition changeMapState (tid newState : Z) (p : threadPool) : threadPool :=
  set_threadState (<[tid := newState]> (threadState p)) p.

Definition deleteMapTid (tid : Z) (p : threadPool) : threadPool :=
  set_threadState (delete tid (threadState p)) p.

(** ** Reflected values

    The worker calls the user function through [reflect] and inspects
    the returned [reflect.Value]s.  The three methods the worker uses
    are modelled as the standard library documents them. *)

Module reflect.

Inductive Kind :=
| Invalid | Bool | Int | Int8 | Int16 | Int32 | Int64 | Uint | Uint8
| Uint16 | Uint32 | Uint64 | Uintptr | Float32 | Float64 | Complex64
| Complex128 | Array | Chan | Func | Interface | Map | Pointer | Slice
| String | Struct | UnsafePointer.

Record Value := mkValue {
  kind : Kind;
  type_name : string;       (* v.Type().String() *)
  is_nil : bool;            (* the chan, func, interface, map, pointer or slice is nil *)
  read_only : bool;         (* obtained through an unexported field *)
  contents : string;        (* the contents, for Kind String *)
  as_error : option string  (* the message of the dynamic value, if it implements error *)
}.

(** A call either returns or panics. *)
Inductive outcome (A : Type) :=
| Returns (a : A)
| Panics.
Arguments Returns {A} a.
Arguments Panics {A}.

(** [Value.IsNil]: panics unless the kind is one that can be nil. *)
Definition IsNil (v : Value) : outcome bool :=
  match kind v with
  | Chan | Func | Interface | Map | Pointer | Slice | UnsafePointer =>
      Returns (is_nil v)
  | _ => Panics
  end.

(** [Value.CanInterface]: panics on the zero Value. *)
Definition CanInterface (v : Value) : outcome bool :=
  match kind v with
  | Invalid => Panics
  | _ => Returns (negb (read_only v))
  end.

(** [Value.String]: the contents for Kind String, and a description
    of the form [<T Value>] for every other kind. *)
Definition ToString (v : Value) : string :=
  match kind v with
  | String => contents v
  | Invalid => "<invalid Value>"
  | _ => "<" +:+ type_name v +:+ " Value>"
  end.

End reflect.

Abbreviation Value := reflect.Value.
Abbreviation outcome := reflect.outcome.
Abbreviation Returns := reflect.Returns.
Abbreviation Panics := reflect.Panics.

(** What an [error] value carries: its message. *)
Definition error := string.

(** The type assertion [iFace.(error)]: panics when the dynamic value
    does not implement [error]. *)
Definition assert_error (v : Value) : outcome error :=
  match reflect.as_error v with
  | Some e => Returns e
  | None => Panics
  end.

(** ** Work descriptors and error records *)

(** [goethe.FunctionDescriptor]: the user function, as the map from its
    reflected arguments to its reflected results, and the arguments. *)
Record FunctionDescriptor := mkDescriptor {
  UserCall : list Value -> list Value;
  Args : list Value
}.

(** [userCallValue.Call(argsAsVals)]; the user function is taken to return. *)
Definition invoke (d : FunctionDescriptor) : list Value :=
  UserCall d (Args d).

(** Modelled from the spec: [newErrorinformation] is not among the
    sources; it builds the ErrorInfo pair (producingTaskId, error). *)
Record ErrorInfo := newErrorinformation {
  GetThreadID : Z;
  GetError : error
}.

(** ** Inspecting the results of a user call *)

(** The condition guarding the enqueue, with Go's short-circuit order:
    [!retVal.IsNil() && retVal.CanInterface() && retVal.String() == "error"]. *)
Definition is_reported (v : Value) : outcome bool :=
  match reflect.IsNil v with
  | Panics => Panics
  | Returns true => Returns false
  | Returns false =>
      match reflect.CanInterface v with
      | Panics => Panics
      | Returns false => Returns false
      | Returns true => Returns (bool_decide (reflect.ToString v = "error"))
      end
  end.

Inductive completion := Completed | Panicked.

(** The loop over [retVals]; [sent] collects what has been enqueued on
    the error queue so far, and survives a panic further on. *)
Fixpoint scan_retVals (tid : Z) (retVals : list Value) (sent : list ErrorInfo)
    : list ErrorInfo * completion :=
  match retVals with
  | [] => (sent, Completed)
  | retVal :: rest =>
      match is_reported retVal with
      | Panics => (sent, Panicked)
      | Returns false => scan_retVals tid rest sent
      | Returns true =>
          match assert_error retVal with
          | Panics => (sent, Panicked)
          | Returns asErr =>
              scan_retVals tid rest (sent ++ [newErrorinformation tid asErr])
          end
      end
  end.

(** Everything after [Call]: guarded by
    [threadPool.errorQueue != nil && len(retVals) > 0]. *)
Definition report_errors (p : threadPool) (tid : Z) (retVals : list Value)
    : list ErrorInfo * completion :=
  match errorQueue p with
  | None => ([], Completed)
  | Some _ =>
      if (0 <? Z.of_nat (length retVals)) then scan_retVals tid retVals []
      else ([], Completed)
  end.

(** ** The worker loop as a machine *)

(** The answers of [functionalQueue.Dequeue(idleDecay)]. *)
Inductive dequeue_result :=
| Dequeued (descriptor : FunctionDescriptor)
| ErrEmptyQueue
| ErrOther (msg : string).

(** Program points of [threadRunner], one per critical section or
    blocking call. *)
Inductive threadRunner_pc :=
| AtLoopHead                               (* about to call IsClosed *)
| AtClosedExit                             (* IsClosed was true: lock, decrement, unlock, return *)
| AtMarkWaiting                            (* changeMapState(tid, WAITING) *)
| AtDequeue                                (* inside Dequeue *)
| AtEmptyQueue                             (* err == ErrEmptyQueue: lock and test *)
| AtMarkRunning (d : FunctionDescriptor)   (* changeMapState(tid, RUNNING) *)
| AtCall (d : FunctionDescriptor)          (* Call and the loop over retVals *)
| AtReturn                                 (* return: the deferred deleteMapTid is due *)
| AtPanic                                  (* panic: the deferred deleteMapTid is due *)
| Exited                                   (* threadRunner has returned *)
| Crashed.                                 (* the panic has left threadRunner *)

(** One step of a worker that does not wait for the queue: the next
    program point, the pool after the critical section, and what was
    enqueued on the error queue. *)
Definition threadRunner_step (tid : Z) (pc : threadRunner_pc) (p : threadPool)
    : option (threadRunner_pc * threadPool * list ErrorInfo) :=
  match pc with
  | AtLoopHead =>
      Some (if IsClosed p then AtClosedExit else AtMarkWaiting, p, [])
  | AtClosedExit =>
      Some (AtReturn, set_currentThreads (Int32.decr (currentThreads p)) p, [])
  | AtMarkWaiting =>
      Some (AtDequeue, changeMapState tid WAITING p, [])
  | AtDequeue => None
  | AtEmptyQueue =>
      if currentThreads p >? minThreads p then
        Some (AtReturn, set_currentThreads (Int32.decr (currentThreads p)) p, [])
      else Some (AtLoopHead, p, [])
  | AtMarkRunning d =>
      Some (AtCall d, changeMapState tid RUNNING p, [])
  | AtCall d =>
      let '(sent, c) := report_errors p tid (invoke d) in
      Some (match c with Completed => AtLoopHead | Panicked => AtPanic end,
            p, sent)
  | AtReturn => Some (Exited, deleteMapTid tid p, [])
  | AtPanic => Some (Crashed, deleteMapTid tid p, [])
  | Exited | Crashed => None
  end.

(** Where the worker goes when [Dequeue] answers. *)
Definition threadRunner_dequeued (r : dequeue_result) : threadRunner_pc :=
  match r with
  | Dequeued d => AtMarkRunning d
  | ErrEmptyQueue => AtEmptyQueue
  | ErrOther _ => AtReturn
  end.

(** ** The monitor loop as a machine *)

Inductive monitor_pc :=
| MonLoopHead      (* about to call IsClosed *)
| MonWaiting       (* inside WaitForStateChange(1 minute) *)
| MonGrow          (* about to call monitorOnce *)
| MonExited.

Definition monitor_step (pc : monitor_pc) (isEmpty : bool) (p : threadPool)
    : option (monitor_pc * threadPool * list task) :=
  match pc with
  | MonLoopHead => Some (if IsClosed p then MonExited else MonWaiting, p, [])
  | MonWaiting => Some (MonGrow, p, [])
  | MonGrow =>
      let '(p', spawned) := monitorOnce isEmpty p in
      Some (MonLoopHead, p', spawned)
  | MonExited => None
  end.

(** ** The running system

    The pool together with the tasks launched on it.  Every critical
    section runs under the pool mutex, so an execution is an
    interleaving of the steps below. *)

Record system := mkSystem {
  pool : threadPool;
  workers : gmap Z threadRunner_pc;        (* task id of each launched worker *)
  monitors : gmap Z monitor_pc;      (* task id of each launched monitor *)
  next_tid : Z;                      (* the launcher's counter *)
  launched : list (Z * task);        (* every launch so far, oldest first *)
  error_queue : list ErrorInfo       (* what has been enqueued on the error queue *)
}.

(** Modelled from the spec: [GoWithArgs] is not among the sources; task
    ids are drawn from a monotonic counter, one fresh id per launch. *)
Definition GoWithArgs (t : task) (s : system) : system :=
  match t with
  | threadRunner_task =>
      mkSystem (pool s) (<[next_tid s := AtLoopHead]> (workers s))
        (monitors s) (next_tid s + 1)
        (launched s ++ [(next_tid s, t)]) (error_queue s)
  | monitor_task =>
      mkSystem (pool s) (workers s)
        (<[next_tid s := MonLoopHead]> (monitors s))
        (next_tid s + 1)
        (launched s ++ [(next_tid s, t)]) (error_queue s)
  end.

Definition launch_all (ts : list task) (s : system) : system :=
  foldl (fun acc t => GoWithArgs t acc) s ts.

Definition with_pool (p : threadPool) (s : system) : system :=
  mkSystem p (workers s) (monitors s) (next_tid s) (launched s)
    (error_queue s).

Inductive action :=
| ClientStart
| ClientClose
| WorkerStep (tid : Z)
| WorkerDequeue (tid : Z) (r : dequeue_result)
| MonitorStep (tid : Z) (isEmpty : bool).

(** One step of the system; [None] when the action is not enabled. *)
Definition sys_step (a : action) (s : system) : option system :=
  match a with
  | ClientStart =>
      let '(p', spawned, _) := Start (pool s) in
      Some (launch_all spawned (with_pool p' s))
  | ClientClose => Some (with_pool (Close (pool s)) s)
  | WorkerStep tid =>
      match workers s !! tid with
      | None => None
      | Some pc =>
          match threadRunner_step tid pc (pool s) with
          | None => None
          | Some (pc', p', sent) =>
              Some (mkSystem p' (<[tid := pc']> (workers s)) (monitors s)
                      (next_tid s) (launched s) (error_queue s ++ sent))
          end
      end
  | WorkerDequeue tid r =>
      match workers s !! tid with
      | Some AtDequeue =>
          Some (mkSystem (pool s) (<[tid := threadRunner_dequeued r]> (workers s))
                  (monitors s) (next_tid s) (launched s) (error_queue s))
      | _ => None
      end
  | MonitorStep tid isEmpty =>
      match monitors s !! tid with
      | None => None
      | Some pc =>
          match monitor_step pc isEmpty (pool s) with
          | None => None
          | Some (pc', p', spawned) =>
              Some (launch_all spawned
                      (mkSystem p' (workers s) (<[tid := pc']> (monitors s))
                         (next_tid s) (launched s) (error_queue s)))
          end
      end
  end.

Fixpoint run (tr : list action) (s : system) : option system :=
  match tr with
  | [] => Some s
  | a :: tr' =>
      match sys_step a s with
      | None => None
      | Some s' => run tr' s'
      end
  end.

(** The system right after construction: no task has been launched. *)
Definition boot (p : threadPool) : system :=
  mkSystem p ∅ ∅ 1 [] [].

(** [s] is a state of some execution on a pool built by [NewThreadPool]. *)
Definition reachable (s : system) : Prop :=
  exists nm min max idle fq eq p tr,
    NewThreadPool nm min max idle fq eq = Ok p /\ run tr (boot p) = Some s.

(** Workers that have been launched and have not returned or crashed. *)
Definition is_live (pc : threadRunner_pc) : bool :=
  match pc with
  | Exited | Crashed => false
  | _ => true
  end.

Definition live_workers (s : system) : Z :=
  Z.of_nat (length (filter (fun kv => is_live kv.2 = true) (map_to_list (workers s)))).

(** The worker launches so far. *)
Definition workers_launched (s : system) : list (Z * task) :=
  filter (fun l => l.2 = threadRunner_task) (launched s).

(** ** The step relation

    The same transitions as [sys_step], one constructor per kind of
    step, for proofs by case analysis. *)

Inductive step (s : system) : action -> system -> Prop :=
| step_start :
    step s ClientStart
      (launch_all (Start (pool s)).1.2 (with_pool (Start (pool s)).1.1 s))
| step_close :
    step s ClientClose (with_pool (Close (pool s)) s)
| step_worker tid pc pc' p' sent :
    workers s !! tid = Some pc ->
    threadRunner_step tid pc (pool s) = Some (pc', p', sent) ->
    step s (WorkerStep tid)
      (mkSystem p' (<[tid := pc']> (workers s)) (monitors s) (next_tid s)
         (launched s) (error_queue s ++ sent))
| step_dequeue tid r :
    workers s !! tid = Some AtDequeue ->
    step s (WorkerDequeue tid r)
      (mkSystem (pool s) (<[tid := threadRunner_dequeued r]> (workers s))
         (monitors s) (next_tid s) (launched s) (error_queue s))
| step_monitor tid isEmpty pc pc' p' spawned :
    monitors s !! tid = Some pc ->
    monitor_step pc isEmpty (pool s) = Some (pc', p', spawned) ->
    step s (MonitorStep tid isEmpty)
      (launch_all spawned
         (mkSystem p' (workers s) (<[tid := pc']> (monitors s)) (next_tid s)
            (launched s) (error_queue s))).

(** ** Predicates on pools and systems *)

(** The configuration fields of [q] are those of [p]. *)
Record same_config (p q : threadPool) : Prop := {
  same_name : name q = name p;
  same_min : minThreads q = minThreads p;
  same_max : maxThreads q = maxThreads p;
  same_idle : idleDecay q = idleDecay p;
  same_fq : functionalQueue q = functionalQueue p;
  same_eq : errorQueue q = errorQueue p
}.

(** [currentThreads] is an int32 and [threadState] only ever holds the
    two constants. *)
Definition states_wf (ts : gmap Z Z) : Prop :=
  forall tid st, ts !! tid = Some st -> st = WAITING \/ st = RUNNING.

Record wf_pool (p : threadPool) : Prop := {
  wf_current : Int32.in_range (currentThreads p);
  wf_states : states_wf (threadState p)
}.

(** Launched tasks get ids the launcher has not handed out before, so
    a launch never disturbs a task that is already there. *)
Record tids_fresh (s : system) : Prop := {
  fresh_workers : forall k pc, workers s !! k = Some pc -> k < next_tid s;
  fresh_monitors : forall k pc, monitors s !! k = Some pc -> k < next_tid s
}.

Record wf_system (s : system) : Prop := {
  wf_sys_pool : wf_pool (pool s);
  wf_sys_fresh : tids_fresh s
}.

(** Without an error queue nothing is ever enqueued. *)
Record no_error_queue (s : system) : Prop := {
  queue_absent : errorQueue (pool s) = None;
  nothing_sent : error_queue s = []
}.

(** ** Scenarios *)

(** A function queue, an error queue, and the pool
    [NewThreadPool("pool", 1, 1, 0, fq, eq)]; ids 1 and 2 go to the
    worker and the monitor that the first [Start] launches. *)
Definition fq0 : FunctionQueue := Some 0%nat.
Definition eq0 : ErrorQueue := Some 1%nat.

Definition pool_1_1 : threadPool :=
  mkThreadPool "pool" false false 1 1 0 fq0 eq0 0 ∅.

Definition pool_2_2 : threadPool :=
  mkThreadPool "pool" false false 2 2 0 fq0 eq0 0 ∅.

(** The result of a user function [func() error] that returns
    [errors.New("boom")]: [Call] yields one Value of the declared result
    type [error], an interface kind, holding a non-nil error. *)
Definition boom : Value :=
  reflect.mkValue reflect.Interface "error" false false "" (Some "boom").

Definition failing : FunctionDescriptor := mkDescriptor (fun _ => [boom]) [].

(** The results of a user function [func() (int, error)] that returns
    [(0, errors.New("boom"))]. *)
Definition zero : Value :=
  reflect.mkValue reflect.Int "int" false false "" None.

Definition counting : FunctionDescriptor :=
  mkDescriptor (fun _ => [zero; boom]) [].

(** A user function without results. *)
Definition quiet : FunctionDescriptor := mkDescriptor (fun _ => []) [].

(** The worker takes a descriptor and is RUNNING it; the queue still
    holds work when the monitor wakes up and runs its growth step. *)
Definition busy_then_grow : list action :=
  [ClientStart; WorkerStep 1; WorkerStep 1; WorkerDequeue 1 (Dequeued quiet);
   WorkerStep 1; MonitorStep 2 false; MonitorStep 2 false; MonitorStep 2 false].

(** The worker's Dequeue fails with an error that is not ErrEmptyQueue. *)
Definition dequeue_fails : list action :=
  [ClientStart; WorkerStep 1; WorkerStep 1;
   WorkerDequeue 1 (ErrOther "queue failure"); WorkerStep 1].

(** The worker runs a user function that returns an error. *)
Definition user_error : list action :=
  [ClientStart; WorkerStep 1; WorkerStep 1; WorkerDequeue 1 (Dequeued failing);
   WorkerStep 1; WorkerStep 1].

(** The monitor has passed its closed test and waits for the queue when
    the pool is closed; it then wakes up and runs its growth step. *)
Definition close_while_monitor_waits : list action :=
  [ClientStart; MonitorStep 2 false; ClientClose].

Definition monitor_wakes_up : list action :=
  [MonitorStep 2 false; MonitorStep 2 false].

(** The pool of the scenarios, constructed without an error queue. *)
Definition pool_1_1_no_eq : threadPool :=
  mkThreadPool "pool" false false 1 1 0 fq0 None 0 ∅.

(** An execution with every kind of step: start, a worker that runs a
    failing function, growth, close, and the worker leaving. *)
Definition full_run : list action :=
  user_error ++
  [MonitorStep 2 false; MonitorStep 2 false; MonitorStep 2 false;
   ClientClose; WorkerStep 1; WorkerStep 1; WorkerStep 1; MonitorStep 2 true].

(** ** Counting tasks *)

(** The number of entries of a map whose value passes [f]. *)
Definition count_where {A} (f : A -> bool) (m : gmap Z A) : Z :=
  Z.of_nat (size (filter (fun kv : Z * A => f kv.2 = true) m)).

(** The program points at which a worker has not yet left its loop: it
    was counted in [currentThreads] when it was launched and has not
    taken any exit. *)
Definition in_loop (pc : threadRunner_pc) : bool :=
  match pc with
  | AtLoopHead | AtClosedExit | AtMarkWaiting | AtDequeue | AtEmptyQueue
  | AtMarkRunning _ | AtCall _ => true
  | AtReturn | AtPanic | Exited | Crashed => false
  end.

Definition workers_in_loop (s : system) : Z := count_where in_loop (workers s).

(** The program points from which a monitor reaches [monitorOnce]
    without reading [closed] again. *)
Definition past_closed_test (pc : monitor_pc) : bool :=
  match pc with
  | MonWaiting | MonGrow => true
  | MonLoopHead | MonExited => false
  end.

Definition monitors_past_closed_test (s : system) : Z :=
  count_where past_closed_test (monitors s).

(** The workers among the tasks handed to the launcher. *)
Definition count_runners (ts : list task) : Z :=
  Z.of_nat (length (filter (fun t => t = threadRunner_task) ts)).

(** ** What a worker's program point says about its threadState entry *)

(** [Some e]: a worker at [pc] has the entry [e] ([None] is no entry);
    [None]: the program point leaves the entry open. *)
Definition entry_at (pc : threadRunner_pc) : option (option Z) :=
  match pc with
  | AtDequeue | AtEmptyQueue | AtMarkRunning _ => Some (Some WAITING)
  | AtCall _ => Some (Some RUNNING)
  | Exited | Crashed => Some None
  | AtLoopHead | AtClosedExit | AtMarkWaiting | AtReturn | AtPanic => None
  end.

Record entries_follow_workers (s : system) : Prop := {
  entry_of_worker : forall tid pc e,
    workers s !! tid = Some pc -> entry_at pc = Some e ->
    threadState (pool s) !! tid = e;
  worker_of_entry : forall tid st,
    threadState (pool s) !! tid = Some st ->
    exists pc, workers s !! tid = Some pc /\ is_live pc = true
}.

(** ** Kinds that [IsNil] accepts *)

Definition nilable (k : reflect.Kind) : bool :=
  match k with
  | reflect.Chan | reflect.Func | reflect.Interface | reflect.Map
  | reflect.Pointer | reflect.Slice | reflect.UnsafePointer => true
  | _ => false
  end.

(** ** Further scenarios *)

(** The pool is closed while its worker runs a user function and its
    monitor waits for the queue. *)
Definition close_while_busy : list action :=
  [ClientStart; WorkerStep 1; WorkerStep 1; WorkerDequeue 1 (Dequeued quiet);
   WorkerStep 1; MonitorStep 2 false; ClientClose].

(** After that: the monitor wakes up and grows, the worker comes back
    from the call and leaves, the new worker leaves, and the monitor
    leaves at its loop head. *)
Definition wind_down : list action :=
  [MonitorStep 2 false; MonitorStep 2 false;
   WorkerStep 1; WorkerStep 1; WorkerStep 1; WorkerStep 1;
   WorkerStep 3; WorkerStep 3; WorkerStep 3; MonitorStep 2 false].

(** ** The thread count against the tasks *)

(** As long as the launcher's counter stays in the int32 range,
    [currentThreads] lies between the workers still in their loop and
    the workers launched so far. *)
Record count_inv (s : system) : Prop := {
  tids_counted : next_tid s = 1 + Z.of_nat (length (launched s));
  count_bounds :
    next_tid s <= Int32.max_int ->
    workers_in_loop s <= currentThreads (pool s)
    /\ currentThreads (pool s) <= Z.of_nat (length (workers_launched s))
}.

(** ** Telling the client calls apart *)

Definition is_start (a : action) : bool :=
  match a with ClientStart => true | _ => false end.

Definition is_close (a : action) : bool :=
  match a with ClientClose => true | _ => false end.

(** The pool has not been started: nothing has been launched, counted,
    registered or reported. *)
Record untouched (s : system) : Prop := {
  no_workers : workers s = ∅;
  no_monitors : monitors s = ∅;
  no_launches : launched s = [];
  no_threads : currentThreads (pool s) = 0;
  no_entries : threadState (pool s) = ∅;
  no_errors : error_queue s = []
}.

(** ** Scenarios of the decay *)

(** After the pool of one worker has grown to two, the new worker
    registers, waits for work and times out: currentThreads is 2 and
    minThreads is 1 when it reaches the test of the decay. *)
Definition grow_then_idle : list action :=
  busy_then_grow ++ [WorkerStep 3; WorkerStep 3; WorkerDequeue 3 ErrEmptyQueue].

(** The only worker of the pool times out: currentThreads and minThreads
    are both 1 when it reaches the test of the decay. *)
Definition idle_at_min : list action :=
  [ClientStart; WorkerStep 1; WorkerStep 1; WorkerDequeue 1 ErrEmptyQueue].

(** * Properties *)

(** ** int32 arithmetic *)

Lemma wrap_in_range z : Int32.in_range (Int32.wrap z).
Proof.
  unfold Int32.in_range, Int32.wrap, Int32.min_int, Int32.max_int.
  pose proof (Z.mod_pos_bound (z + 2 ^ 31) (2 ^ 32) ltac:(lia)). lia.
Qed.

Lemma wrap_id z : Int32.in_range z -> Int32.wrap z = z.
Proof.
  unfold Int32.in_range, Int32.wrap, Int32.min_int, Int32.max_int. intros Hz.
  rewrite Z.mod_small; lia.
Qed.

Lemma incr_below z :
  Int32.in_range z -> z < Int32.max_int -> Int32.incr z = z + 1.
Proof.
  unfold Int32.incr. intros Hz Hlt. apply wrap_id.
  unfold Int32.in_range, Int32.min_int, Int32.max_int in *. lia.
Qed.

Lemma decr_above z :
  Int32.in_range z -> Int32.min_int < z -> Int32.decr z = z - 1.
Proof.
  unfold Int32.decr. intros Hz Hlt. apply wrap_id.
  unfold Int32.in_range, Int32.min_int, Int32.max_int in *. lia.
Qed.

Lemma incr_le z : Int32.in_range z -> Int32.incr z <= z + 1.
Proof.
  intros Hz. destruct (Z.eq_dec z Int32.max_int) as [->|Hne].
  - vm_compute. discriminate.
  - rewrite incr_below; [lia | done | unfold Int32.in_range in Hz; lia].
Qed.

Lemma in_range_0 : Int32.in_range 0.
Proof. unfold Int32.in_range, Int32.min_int, Int32.max_int. lia. Qed.

(** ** Construction *)

(** The validator as the code has it: the third test refuses [min < max],
    so a pool is built exactly when [max <= min]. *)
Lemma NewThreadPool_ok_iff nm min max idle fq eq :
  is_ok (NewThreadPool nm min max idle fq eq) = true <->
  0 <= min /\ 1 <= max /\ max <= min /\ fq <> None.
Proof.
  unfold NewThreadPool.
  destruct (Z.ltb_spec min 0), (Z.ltb_spec max 1), (Z.ltb_spec min max),
    fq; simpl; split; try discriminate; try lia;
    try (intros (? & ? & ? & ?); try lia; congruence);
    intros _; repeat split; (lia || discriminate).
Qed.

Lemma NewThreadPool_inv nm min max idle fq eq p :
  NewThreadPool nm min max idle fq eq = Ok p ->
  p = mkThreadPool nm false false min max idle fq eq 0 ∅ /\
  0 <= min /\ 1 <= max /\ max <= min /\ fq <> None.
Proof.
  intros H.
  assert (Hok : is_ok (NewThreadPool nm min max idle fq eq) = true)
    by (rewrite H; reflexivity).
  apply NewThreadPool_ok_iff in Hok. split; [|exact Hok].
  revert H. unfold NewThreadPool.
  destruct (min <? 0), (max <? 1), (min <? max), fq; try discriminate.
  intros [= <-]. reflexivity.
Qed.

(** ** The configuration is never written *)

Lemma same_config_refl p : same_config p p.
Proof. by split. Qed.

Lemma same_config_trans p q r :
  same_config p q -> same_config q r -> same_config p r.
Proof. intros [] []. split; congruence. Qed.

Lemma set_started_config b p : same_config p (set_started b p).
Proof. by split. Qed.

Lemma set_closed_config b p : same_config p (set_closed b p).
Proof. by split. Qed.

Lemma set_currentThreads_config n p : same_config p (set_currentThreads n p).
Proof. by split. Qed.

Lemma set_threadState_config ts p : same_config p (set_threadState ts p).
Proof. by split. Qed.

(** ** The loop of Start in closed form *)

Lemma iter_incr_shift n c :
  Nat.iter n Int32.incr (Int32.incr c) = Int32.incr (Nat.iter n Int32.incr c).
Proof. induction n as [|n IH]; simpl; [done|]. by rewrite IH. Qed.

Lemma start_loop_spec n : forall p spawned,
  start_loop n p spawned =
  (set_currentThreads (Nat.iter n Int32.incr (currentThreads p)) p,
   spawned ++ replicate n threadRunner_task).
Proof.
  induction n as [|n IH]; intros p spawned.
  - simpl. rewrite app_nil_r. by destruct p.
  - cbn [start_loop]. rewrite IH. cbn [Nat.iter replicate].
    rewrite <- app_assoc. cbn [currentThreads set_currentThreads app].
    by rewrite iter_incr_shift.
Qed.

Lemma iter_incr_no_wrap n c :
  Int32.in_range c -> c + Z.of_nat n <= Int32.max_int ->
  Nat.iter n Int32.incr c = c + Z.of_nat n.
Proof.
  intros Hc. induction n as [|n IH]; intros Hle; simpl; [lia|].
  rewrite IH by lia. rewrite incr_below.
  - lia.
  - unfold Int32.in_range in *. lia.
  - lia.
Qed.

Lemma iter_incr_in_range n c :
  Int32.in_range c -> Int32.in_range (Nat.iter n Int32.incr c).
Proof. intros Hc. destruct n; simpl; [done|apply wrap_in_range]. Qed.

(** What every call of [Start] does, whatever the state of the pool. *)
Lemma Start_spec p :
  Start p =
  (set_started true
     (set_currentThreads
        (Nat.iter (Z.to_nat (minThreads p)) Int32.incr (currentThreads p)) p),
   replicate (Z.to_nat (minThreads p)) threadRunner_task ++ [monitor_task],
   None).
Proof. unfold Start. by rewrite start_loop_spec. Qed.

Lemma Start_config p : same_config p (Start p).1.1.
Proof. rewrite Start_spec. by split. Qed.

Lemma Close_config p : same_config p (Close p).
Proof. by split. Qed.

Lemma monitorOnce_config e p : same_config p (monitorOnce e p).1.
Proof.
  unfold monitorOnce.
  destruct e, (currentThreads p >? maxThreads p), (allBusy (threadState p));
    by split.
Qed.

Lemma threadRunner_step_config tid pc p pc' p' sent :
  threadRunner_step tid pc p = Some (pc', p', sent) -> same_config p p'.
Proof.
  destruct pc; simpl; try discriminate;
    try (intros [= <- <- <-]; by split).
  - destruct (currentThreads p >? minThreads p); intros [= <- <- <-]; by split.
  - destruct (report_errors p tid (invoke d)); intros [= <- <- <-]; by split.
Qed.

Lemma monitor_step_config pc e p pc' p' spawned :
  monitor_step pc e p = Some (pc', p', spawned) -> same_config p p'.
Proof.
  destruct pc; simpl; try discriminate; try (intros [= <- <- <-]; by split).
  pose proof (monitorOnce_config e p) as H.
  destruct (monitorOnce e p). intros [= <- <- <-]. exact H.
Qed.

(** ** Well-formed pools

    [currentThreads] is an int32 and [threadState] only ever holds the
    two constants; every critical section keeps both. *)

Lemma states_wf_insert tid st ts :
  st = WAITING \/ st = RUNNING -> states_wf ts -> states_wf (<[tid := st]> ts).
Proof.
  intros Hst Hts k v. rewrite lookup_insert. case_decide.
  - intros [= <-]. exact Hst.
  - apply Hts.
Qed.

Lemma states_wf_delete tid ts : states_wf ts -> states_wf (delete tid ts).
Proof.
  intros Hts k v. rewrite lookup_delete. case_decide; [done|apply Hts].
Qed.

Lemma NewThreadPool_wf nm min max idle fq eq p :
  NewThreadPool nm min max idle fq eq = Ok p -> wf_pool p.
Proof.
  intros H. apply NewThreadPool_inv in H as [-> _]. split; simpl.
  - apply in_range_0.
  - intros k v. by rewrite lookup_empty.
Qed.

Lemma Start_wf p : wf_pool p -> wf_pool (Start p).1.1.
Proof.
  intros [Hc Hs]. rewrite Start_spec. split; simpl; [|done].
  by apply iter_incr_in_range.
Qed.

Lemma Close_wf p : wf_pool p -> wf_pool (Close p).
Proof. intros [Hc Hs]. by split. Qed.

Lemma monitorOnce_wf e p : wf_pool p -> wf_pool (monitorOnce e p).1.
Proof.
  intros [Hc Hs]. unfold monitorOnce.
  destruct e, (currentThreads p >? maxThreads p), (allBusy (threadState p));
    split; simpl; try done; apply wrap_in_range.
Qed.

Lemma threadRunner_step_wf tid pc p pc' p' sent :
  threadRunner_step tid pc p = Some (pc', p', sent) -> wf_pool p -> wf_pool p'.
Proof.
  intros Hstep [Hc Hs]. destruct pc; simpl in Hstep; try discriminate.
  - by injection Hstep as <- <- <-.
  - injection Hstep as <- <- <-. split; simpl; [apply wrap_in_range|done].
  - injection Hstep as <- <- <-. split; simpl; [done|].
    apply states_wf_insert; auto.
  - destruct (currentThreads p >? minThreads p); injection Hstep as <- <- <-;
      split; simpl; try done. apply wrap_in_range.
  - injection Hstep as <- <- <-. split; simpl; [done|].
    apply states_wf_insert; auto.
  - destruct (report_errors p tid (invoke d)). by injection Hstep as <- <- <-.
  - injection Hstep as <- <- <-. split; simpl; [done|].
    by apply states_wf_delete.
  - injection Hstep as <- <- <-. split; simpl; [done|].
    by apply states_wf_delete.
Qed.

Lemma monitor_step_wf pc e p pc' p' spawned :
  monitor_step pc e p = Some (pc', p', spawned) -> wf_pool p -> wf_pool p'.
Proof.
  intros Hstep Hwf. destruct pc; simpl in Hstep; try discriminate;
    try (by injection Hstep as <- <- <-).
  pose proof (monitorOnce_wf e p Hwf) as H.
  destruct (monitorOnce e p). by injection Hstep as <- <- <-.
Qed.

(** ** The step relation and the step function agree *)

Lemma sys_step_sound a s s' : sys_step a s = Some s' -> step s a s'.
Proof.
  destruct a as [| |tid|tid r|tid e]; simpl.
  - destruct (Start (pool s)) as [[p' spawned] err] eqn:E. intros [= <-].
    pose proof (step_start s) as H. by rewrite E in H.
  - intros [= <-]. constructor.
  - destruct (workers s !! tid) as [pc|] eqn:Hw; [|done].
    destruct (threadRunner_step tid pc (pool s)) as [[[pc' p'] sent]|] eqn:Hs;
      [|done].
    intros [= <-]. by econstructor.
  - destruct (workers s !! tid) as [pc|] eqn:Hw; [|done].
    destruct pc; try done. intros [= <-]. by constructor.
  - destruct (monitors s !! tid) as [pc|] eqn:Hm; [|done].
    destruct (monitor_step pc e (pool s)) as [[[pc' p'] spawned]|] eqn:Hs;
      [|done].
    intros [= <-]. by econstructor.
Qed.

Lemma sys_step_complete a s s' : step s a s' -> sys_step a s = Some s'.
Proof.
  destruct 1 as [| |tid pc pc' p' sent Hw Hs|tid r Hw|tid e pc pc' p' sp Hm Hs];
    simpl.
  - by destruct (Start (pool s)) as [[p' spawned] err].
  - done.
  - by rewrite Hw, Hs.
  - by rewrite Hw.
  - by rewrite Hm, Hs.
Qed.

(** An invariant of the steps holds along every run. *)
Lemma run_invariant (P : system -> Prop) :
  (forall a s s', P s -> step s a s' -> P s') ->
  forall tr s s', P s -> run tr s = Some s' -> P s'.
Proof.
  intros Hstep. induction tr as [|a tr IH]; intros s s' HP; simpl.
  - by intros [= <-].
  - destruct (sys_step a s) as [s1|] eqn:E; [|done].
    apply IH. eapply Hstep; [exact HP|]. by apply sys_step_sound.
Qed.

(** ** Launching *)

Lemma GoWithArgs_pool t s : pool (GoWithArgs t s) = pool s.
Proof. by destruct t. Qed.

Lemma launch_all_cons t ts s :
  launch_all (t :: ts) s = launch_all ts (GoWithArgs t s).
Proof. done. Qed.

Lemma launch_all_pool ts s : pool (launch_all ts s) = pool s.
Proof.
  revert s. induction ts as [|t ts IH]; intros s; [done|].
  by rewrite launch_all_cons, IH, GoWithArgs_pool.
Qed.

Lemma launch_all_error_queue ts s :
  error_queue (launch_all ts s) = error_queue s.
Proof.
  revert s. induction ts as [|t ts IH]; intros s; [done|].
  rewrite launch_all_cons, IH. by destruct t.
Qed.

Lemma launch_all_launched ts s :
  (launched (launch_all ts s)).*2 = (launched s).*2 ++ ts.
Proof.
  revert s. induction ts as [|t ts IH]; intros s.
  - by rewrite app_nil_r.
  - rewrite launch_all_cons, IH.
    destruct t; simpl; rewrite fmap_app; simpl; by rewrite <- app_assoc.
Qed.

Lemma launch_all_nil s : launch_all [] s = s.
Proof. done. Qed.

Lemma GoWithArgs_fresh t s : tids_fresh s -> tids_fresh (GoWithArgs t s).
Proof.
  intros [Hw Hm]. destruct t; split; simpl; intros k pc.
  - rewrite lookup_insert. case_decide; [lia|]. intros H'. apply Hw in H'. lia.
  - intros H'. apply Hm in H'. lia.
  - intros H'. apply Hw in H'. lia.
  - rewrite lookup_insert. case_decide; [lia|]. intros H'. apply Hm in H'. lia.
Qed.

Lemma GoWithArgs_keeps_workers t s k pc :
  tids_fresh s -> workers s !! k = Some pc ->
  workers (GoWithArgs t s) !! k = Some pc.
Proof.
  intros [Hw _] Hk. destruct t; simpl; [|done].
  rewrite lookup_insert_ne; [done|]. apply Hw in Hk. lia.
Qed.

Lemma launch_all_fresh ts s : tids_fresh s -> tids_fresh (launch_all ts s).
Proof.
  revert s. induction ts as [|t ts IH]; intros s Hs; [done|].
  rewrite launch_all_cons. by apply IH, GoWithArgs_fresh.
Qed.

Lemma launch_all_keeps_workers ts s k pc :
  tids_fresh s -> workers s !! k = Some pc ->
  workers (launch_all ts s) !! k = Some pc.
Proof.
  revert s. induction ts as [|t ts IH]; intros s Hs Hk; [done|].
  rewrite launch_all_cons. apply IH.
  - by apply GoWithArgs_fresh.
  - by apply GoWithArgs_keeps_workers.
Qed.

(** ** Invariants of the running system *)

Lemma boot_wf nm min max idle fq eq p :
  NewThreadPool nm min max idle fq eq = Ok p -> wf_system (boot p).
Proof.
  intros H. split.
  - simpl. by eapply NewThreadPool_wf.
  - split; simpl; intros k pc; by rewrite lookup_empty.
Qed.

Lemma step_wf a s s' : wf_system s -> step s a s' -> wf_system s'.
Proof.
  intros [Hp [Hfw Hfm]] Hstep.
  destruct Hstep as [| |tid pc pc' p' sent Hw Hs|tid r Hw
                    |tid e pc pc' p' sp Hm Hs].
  - split.
    + rewrite launch_all_pool. simpl. by apply Start_wf.
    + apply launch_all_fresh. by split.
  - split; [by apply Close_wf|by split].
  - split; simpl.
    + by eapply threadRunner_step_wf.
    + split; simpl; [|done]. intros k v. rewrite lookup_insert. case_decide.
      * subst k. intros _. by eapply Hfw.
      * apply Hfw.
  - split; simpl; [done|].
    split; simpl; [|done]. intros k v. rewrite lookup_insert. case_decide.
    + subst k. intros _. by eapply Hfw.
    + apply Hfw.
  - split.
    + rewrite launch_all_pool. simpl. by eapply monitor_step_wf.
    + apply launch_all_fresh. split; simpl; [done|].
      intros k v. rewrite lookup_insert. case_decide.
      * subst k. intros _. by eapply Hfm.
      * apply Hfm.
Qed.

Lemma run_wf tr s s' : wf_system s -> run tr s = Some s' -> wf_system s'.
Proof. apply (run_invariant wf_system). intros a. apply step_wf. Qed.

Lemma reachable_wf s : reachable s -> wf_system s.
Proof.
  intros (nm & min & max & idle & fq & eq & p & tr & Hnew & Hrun).
  eapply run_wf; [|exact Hrun]. by eapply boot_wf.
Qed.

Lemma step_config a s s' : step s a s' -> same_config (pool s) (pool s').
Proof.
  destruct 1 as [| |tid pc pc' p' sent Hw Hs|tid r Hw
                |tid e pc pc' p' sp Hm Hs].
  - rewrite launch_all_pool. apply Start_config.
  - apply Close_config.
  - simpl. by eapply threadRunner_step_config.
  - apply same_config_refl.
  - rewrite launch_all_pool. simpl. by eapply monitor_step_config.
Qed.

Lemma run_config tr : forall s s',
  run tr s = Some s' -> same_config (pool s) (pool s').
Proof.
  induction tr as [|a tr IH]; intros s s'; simpl.
  - intros [= <-]. apply same_config_refl.
  - destruct (sys_step a s) as [s1|] eqn:E; [|done]. intros Hrun.
    eapply same_config_trans; [|by apply IH].
    by eapply step_config, sys_step_sound.
Qed.

(** [closed] is only ever set. *)
Lemma step_closed a s s' :
  step s a s' -> closed (pool s) = true -> closed (pool s') = true.
Proof.
  destruct 1 as [| |tid pc pc' p' sent Hw Hs|tid r Hw
                |tid e pc pc' p' sp Hm Hs]; intros Hc.
  - rewrite launch_all_pool. by rewrite Start_spec.
  - done.
  - simpl. destruct pc; simpl in Hs; try discriminate;
      try (by injection Hs as <- <- <-).
    + by destruct (currentThreads (pool s) >? minThreads (pool s));
        injection Hs as <- <- <-.
    + destruct (report_errors (pool s) tid (invoke d)).
      by injection Hs as <- <- <-.
  - done.
  - rewrite launch_all_pool. simpl.
    destruct pc; simpl in Hs; try discriminate;
      try (by injection Hs as <- <- <-).
    revert Hs. unfold monitorOnce.
    by destruct e, (currentThreads (pool s) >? maxThreads (pool s)),
      (allBusy (threadState (pool s))); intros [= <- <- <-].
Qed.

(** ** C1: construction *)

(** C1.  The claim: NewThreadPool returns a pool exactly when min >= 0,
    max >= 1, min <= max and fq is present, so every configuration with
    0 <= min < max and fq present is accepted.  The code tests
    [min < max] where [min > max] is meant: NewThreadPool(_, 1, 4, _, fq, _)
    returns the error "minimum (1) is less than maximum (4)" and no pool. *)
Theorem C1_min_below_max_is_refused nm idle fq eq :
  NewThreadPool nm 1 4 idle (Some fq) eq = Err (ErrMinLessThanMax 1 4) /\
  is_ok (NewThreadPool nm 4 1 idle (Some fq) eq) = true.
Proof. by split. Qed.

(** ** C2: the ceiling *)

(** The early return of [monitorOnce] is taken above the ceiling only:
    at the ceiling, with work queued and no worker waiting, it grows. *)
Lemma monitorOnce_at_max p :
  currentThreads p = maxThreads p -> allBusy (threadState p) = true ->
  monitorOnce false p =
  (set_currentThreads (Int32.incr (currentThreads p)) p, [threadRunner_task]).
Proof.
  intros Hcur Hbusy. unfold monitorOnce. rewrite Hbusy.
  destruct (Z.gtb_spec (currentThreads p) (maxThreads p)); [lia|done].
Qed.

(** C2.  The claim: while the pool is started and not closed,
    min <= currentThreads <= max, and monitorOnce does not launch when
    currentThreads >= maxThreads.  The code returns early only when
    [currentThreads > maxThreads]: on the pool built with min = max = 1,
    once the single worker is RUNNING and the queue is not empty, the
    growth step launches a second worker and currentThreads becomes 2. *)
Theorem C2_growth_step_passes_max :
  NewThreadPool "pool" 1 1 0 fq0 eq0 = Ok pool_1_1 /\
  exists s,
    run busy_then_grow (boot pool_1_1) = Some s /\
    started (pool s) = true /\ closed (pool s) = false /\
    maxThreads (pool s) = 1 /\ currentThreads (pool s) = 2 /\
    workers_launched s = [(1, threadRunner_task); (3, threadRunner_task)].
Proof.
  split; [reflexivity|]. eexists. split; [vm_compute; reflexivity|].
  repeat split.
Qed.

(** ** C3: leaving on a queue error *)

(** C3.  The claim: every exit path of a worker decrements
    currentThreads, also the exit on a dequeue error other than
    empty-queue.  The code returns on that path without touching
    currentThreads: after the only worker of the pool has left this way
    no worker is live, yet currentThreads is still 1. *)
Theorem C3_queue_error_exit_keeps_count :
  exists s,
    run dequeue_fails (boot pool_1_1) = Some s /\
    workers s !! 1 = Some Exited /\ live_workers s = 0 /\
    threadState (pool s) = ∅ /\ currentThreads (pool s) = 1.
Proof.
  eexists. split; [vm_compute; reflexivity|]. repeat split.
Qed.

(** ** C4: reporting a user error *)

(** Whatever the user function returns, nothing reaches the error queue:
    a Value passes [IsNil] only with a kind whose [String] is the
    description [<T Value>], which is never the text "error". *)
Lemma is_reported_never v : is_reported v <> Returns true.
Proof.
  unfold is_reported, reflect.IsNil, reflect.CanInterface, reflect.ToString.
  destruct (reflect.kind v); try discriminate;
    destruct (reflect.is_nil v); try discriminate;
    destruct (negb (reflect.read_only v)); try discriminate;
    rewrite bool_decide_eq_false_2; discriminate.
Qed.

Lemma scan_retVals_sends_nothing tid retVals : forall sent,
  (scan_retVals tid retVals sent).1 = sent.
Proof.
  induction retVals as [|v rest IH]; intros sent; simpl; [done|].
  pose proof (is_reported_never v) as Hv.
  destruct (is_reported v) as [[]|]; [done|apply IH|done].
Qed.

(** C4.  The claim: when the user function returns a non-absent error
    and the error queue is present, the worker enqueues an ErrorInfo
    with its task id and that error, and goes on.  The code compares
    [retVal.String()] with "error"; for the result of a [func() error]
    that text is "<error Value>", so nothing is enqueued: after the
    worker has run such a function the error queue is still empty.  When
    the function also returns an int, [IsNil] panics on that result and
    the worker does not go on. *)
Theorem C4_user_error_is_not_enqueued :
  errorQueue pool_1_1 = eq0 /\
  reflect.ToString boom = "<error Value>" /\
  report_errors pool_1_1 1 (invoke failing) = ([], Completed) /\
  report_errors pool_1_1 1 (invoke counting) = ([], Panicked) /\
  exists s,
    run user_error (boot pool_1_1) = Some s /\
    workers s !! 1 = Some AtLoopHead /\ error_queue s = [].
Proof.
  repeat split. eexists. split; [vm_compute; reflexivity|]. by split.
Qed.

(** ** C5: starting twice *)

(** The first [Start] of a pool as [NewThreadPool] built it. *)
Lemma Start_on_new_pool nm min max idle fq eq p :
  Int32.in_range min ->
  NewThreadPool nm min max idle fq eq = Ok p ->
  Start p =
  (mkThreadPool nm true false min max idle fq eq min ∅,
   replicate (Z.to_nat min) threadRunner_task ++ [monitor_task], None).
Proof.
  intros Hmin Hnew. apply NewThreadPool_inv in Hnew as [-> (H0 & _)].
  rewrite Start_spec. simpl.
  rewrite iter_incr_no_wrap.
  - unfold set_started, set_currentThreads. simpl. do 3 f_equal. lia.
  - apply in_range_0.
  - unfold Int32.in_range in Hmin. lia.
Qed.

(** Every [Start], the first or a later one, hands [minThreads] workers
    and one monitor to the launcher. *)
Lemma ClientStart_launched s s' :
  sys_step ClientStart s = Some s' ->
  (launched s').*2 =
  (launched s).*2 ++
  replicate (Z.to_nat (minThreads (pool s))) threadRunner_task ++ [monitor_task].
Proof.
  simpl. rewrite Start_spec. intros [= <-]. by rewrite launch_all_launched.
Qed.

(** [Start] launches the same tasks whatever [started] holds. *)
Lemma Start_ignores_started p :
  (Start (set_started true p)).1.2 = (Start p).1.2.
Proof. by rewrite !Start_spec. Qed.

(** C5.  The claim: the first Start launches min workers and one
    monitor, sets currentThreads to min and started to true and returns
    no error, and a further Start changes nothing.  The first part holds;
    but Start never reads [started]: on the pool built with
    min = max = 2 the second Start launches two more workers and a second
    monitor and leaves currentThreads at 4. *)
Theorem C5_second_Start_launches_again :
  NewThreadPool "pool" 2 2 0 fq0 eq0 = Ok pool_2_2 /\
  exists s1 s2,
    run [ClientStart] (boot pool_2_2) = Some s1 /\
    started (pool s1) = true /\ currentThreads (pool s1) = 2 /\
    (launched s1).*2 = [threadRunner_task; threadRunner_task; monitor_task] /\
    (Start (pool s1)).2 = None /\
    run [ClientStart] s1 = Some s2 /\
    currentThreads (pool s2) = 4 /\
    (launched s2).*2 =
      [threadRunner_task; threadRunner_task; monitor_task;
       threadRunner_task; threadRunner_task; monitor_task].
Proof.
  split; [reflexivity|]. eexists. eexists.
  split; [vm_compute; reflexivity|].
  do 4 (split; [reflexivity|]).
  split; [vm_compute; reflexivity|]. by split.
Qed.

(** ** C6: launching after Close *)

(** C6.  The claim: once Close has set closed, neither Start nor the
    monitor's growth step launches a worker.  Start never reads [closed],
    and the monitor reads it only before it waits for the queue: a Start
    after Close launches worker 1, and a monitor that was waiting when
    Close came launches worker 3 when it wakes up. *)
Theorem C6_workers_launched_after_Close :
  (exists s1 s2,
     run [ClientClose] (boot pool_1_1) = Some s1 /\
     closed (pool s1) = true /\ workers_launched s1 = [] /\
     run [ClientStart] s1 = Some s2 /\
     workers_launched s2 = [(1, threadRunner_task)]) /\
  (exists s1 s2,
     run close_while_monitor_waits (boot pool_1_1) = Some s1 /\
     closed (pool s1) = true /\
     workers_launched s1 = [(1, threadRunner_task)] /\
     run monitor_wakes_up s1 = Some s2 /\
     workers_launched s2 = [(1, threadRunner_task); (3, threadRunner_task)]).
Proof.
  split; eexists; eexists.
  - split; [vm_compute; reflexivity|]. do 2 (split; [reflexivity|]).
    split; [vm_compute; reflexivity|]. reflexivity.
  - split; [vm_compute; reflexivity|]. do 2 (split; [reflexivity|]).
    split; [vm_compute; reflexivity|]. reflexivity.
Qed.

(** ** C7: decay *)

Lemma reachable_min_nonneg s : reachable s -> 0 <= minThreads (pool s).
Proof.
  intros (nm & min & max & idle & fq & eq & p & tr & Hnew & Hrun).
  apply run_config in Hrun as [_ Hmin _ _ _ _]. simpl in Hmin.
  apply NewThreadPool_inv in Hnew as [-> (? & _)]. simpl in Hmin. lia.
Qed.

(** C7.  On an empty-queue timeout a worker decrements currentThreads
    and returns exactly when currentThreads > min, and otherwise goes
    back to the loop head with the pool untouched; the step never takes
    currentThreads below min, and the return that follows only removes
    the worker's entry of threadState.  This holds in every state whose
    two counters are int32 values, so in every state of every
    execution. *)
Theorem C7_decay_stops_at_min s tid :
  Int32.in_range (currentThreads (pool s)) ->
  Int32.min_int <= minThreads (pool s) ->
  workers s !! tid = Some AtEmptyQueue ->
  threadRunner_dequeued ErrEmptyQueue = AtEmptyQueue /\
  exists s',
    sys_step (WorkerStep tid) s = Some s' /\
    (currentThreads (pool s) > minThreads (pool s) ->
       workers s' !! tid = Some AtReturn /\
       currentThreads (pool s') = currentThreads (pool s) - 1 /\
       pool s' = set_currentThreads (currentThreads (pool s) - 1) (pool s)) /\
    (currentThreads (pool s) <= minThreads (pool s) ->
       workers s' !! tid = Some AtLoopHead /\ pool s' = pool s) /\
    (minThreads (pool s) <= currentThreads (pool s) ->
       minThreads (pool s') <= currentThreads (pool s')) /\
    (forall p, threadRunner_step tid AtReturn p = Some (Exited, deleteMapTid tid p, []) /\
               currentThreads (deleteMapTid tid p) = currentThreads p).
Proof.
  intros Hcur Hmin Hpc. split; [reflexivity|].
  simpl. rewrite Hpc. simpl.
  destruct (Z.gtb_spec (currentThreads (pool s)) (minThreads (pool s)))
    as [Hgt|Hle]; eexists; (split; [reflexivity|]); simpl;
    rewrite lookup_insert_eq.
  - assert (Hdecr : Int32.decr (currentThreads (pool s))
                    = currentThreads (pool s) - 1).
    { apply decr_above; [done|]. lia. }
    rewrite Hdecr. repeat split; try lia.
  - repeat split; try lia.
Qed.

(** Both branches on the pool built with min = max = 1: with two
    workers counted the idle one takes the count from 2 to 1 and
    returns; with one worker counted it goes back to its loop head. *)
Lemma C7_decay_stops_at_min_witness :
  (exists s,
     run grow_then_idle (boot pool_1_1) = Some s /\
     workers s !! 3 = Some AtEmptyQueue /\
     currentThreads (pool s) = 2 /\ minThreads (pool s) = 1 /\
     exists s',
       sys_step (WorkerStep 3) s = Some s' /\
       workers s' !! 3 = Some AtReturn /\
       currentThreads (pool s') = 1 /\
       pool s' = set_currentThreads 1 (pool s)) /\
  (exists s,
     run idle_at_min (boot pool_1_1) = Some s /\
     workers s !! 1 = Some AtEmptyQueue /\
     currentThreads (pool s) = 1 /\ minThreads (pool s) = 1 /\
     exists s',
       sys_step (WorkerStep 1) s = Some s' /\
       workers s' !! 1 = Some AtLoopHead /\
       currentThreads (pool s') = 1 /\ pool s' = pool s).
Proof.
  split.
  - eexists. split; [vm_compute; reflexivity|].
    do 3 (split; [reflexivity|]).
    match goal with
    | |- context [sys_step _ ?s] =>
        destruct (C7_decay_stops_at_min s 3
                    ltac:(vm_compute; split; discriminate)
                    ltac:(vm_compute; discriminate) eq_refl)
          as (_ & s' & Hstep & Hdecay & _);
        destruct (Hdecay ltac:(vm_compute; reflexivity))
          as (Hpc & Hcount & Hpool);
        exists s'; split_and!;
          [exact Hstep | exact Hpc | exact Hcount | exact Hpool]
    end.
  - eexists. split; [vm_compute; reflexivity|].
    do 3 (split; [reflexivity|]).
    match goal with
    | |- context [sys_step _ ?s] =>
        destruct (C7_decay_stops_at_min s 1
                    ltac:(vm_compute; split; discriminate)
                    ltac:(vm_compute; discriminate) eq_refl)
          as (_ & s' & Hstep & _ & Hloop & _);
        destruct (Hloop ltac:(vm_compute; discriminate)) as (Hpc & Hpool);
        exists s'; split_and!;
          [exact Hstep | exact Hpc | by rewrite Hpool | exact Hpool]
    end.
Defined.

(** ** C8: the growth step *)

Lemma allBusy_spec ts :
  allBusy ts = true <-> forall tid st, ts !! tid = Some st -> st <> WAITING.
Proof.
  unfold allBusy. rewrite forallb_forall. split.
  - intros H tid st Hl.
    specialize (H (tid, st)). simpl in H.
    assert (Hin : In (tid, st) (map_to_list ts)).
    { apply list_elem_of_In. by apply elem_of_map_to_list. }
    apply H in Hin. apply negb_true_iff, Z.eqb_neq in Hin. exact Hin.
  - intros H [tid st] Hin. simpl.
    apply list_elem_of_In, elem_of_map_to_list in Hin.
    apply negb_true_iff, Z.eqb_neq. by eapply H.
Qed.

(** What one call of [monitorOnce] can do to a well-formed pool. *)
Lemma monitorOnce_cases e p :
  wf_pool p ->
  monitorOnce e p = (p, []) \/
  (monitorOnce e p =
     (set_currentThreads (Int32.incr (currentThreads p)) p, [threadRunner_task]) /\
   e = false /\ currentThreads p <= maxThreads p /\
   forall tid st, threadState p !! tid = Some st -> st = RUNNING).
Proof.
  intros [_ Hs]. unfold monitorOnce. destruct e; [by left|].
  destruct (Z.gtb_spec (currentThreads p) (maxThreads p)); [by left|].
  destruct (allBusy (threadState p)) eqn:Hbusy; [|by left].
  right. repeat split; [lia|]. intros tid st Hl.
  destruct (Hs _ _ Hl) as [-> | ->]; [|done].
  rewrite allBusy_spec in Hbusy. by apply Hbusy in Hl.
Qed.

(** C8.  One step of the monitor, and so one run of its growth step,
    raises currentThreads by at most one; it launches at most one
    worker, and only when the function queue is not empty and every
    entry of threadState is RUNNING; it removes no worker: threadState
    and the workers that are there stay as they are. *)
Theorem C8_growth_step_adds_at_most_one s tid isEmpty s' :
  reachable s -> sys_step (MonitorStep tid isEmpty) s = Some s' ->
  currentThreads (pool s') <= currentThreads (pool s) + 1 /\
  ((launched s' = launched s /\ pool s' = pool s) \/
   (launched s' = launched s ++ [(next_tid s, threadRunner_task)] /\
    currentThreads (pool s') = Int32.incr (currentThreads (pool s)) /\
    monitors s !! tid = Some MonGrow /\ isEmpty = false /\
    forall w st, threadState (pool s) !! w = Some st -> st = RUNNING)) /\
  threadState (pool s') = threadState (pool s) /\
  (forall w pc, workers s !! w = Some pc -> workers s' !! w = Some pc).
Proof.
  intros Hreach Hstep. apply reachable_wf in Hreach as [Hwf Hfresh].
  pose proof (wf_current _ Hwf) as Hcur.
  apply sys_step_sound in Hstep. inversion Hstep as [| | | |? ? pc pc' p' sp Hm Hs];
    subst.
  assert (Hkeep : forall w wpc, workers s !! w = Some wpc ->
            workers (launch_all sp
              (mkSystem p' (workers s) (<[tid := pc']> (monitors s))
                 (next_tid s) (launched s) (error_queue s))) !! w = Some wpc).
  { intros w wpc Hw. apply launch_all_keeps_workers; [|done].
    destruct Hfresh as [Hfw Hfm]. split; simpl; [done|].
    intros k v. rewrite lookup_insert. case_decide; [|apply Hfm].
    subst k. intros _. by eapply Hfm. }
  split_and!; try exact Hkeep; clear Hkeep;
    destruct pc; simpl in Hs; try discriminate;
    try (injection Hs as <- <- <-; simpl; first [lia | done | by left]).
  all: destruct (monitorOnce_cases isEmpty (pool s) Hwf)
         as [Heq | (Heq & He & Hle & Hrun)];
       rewrite Heq in Hs; injection Hs as <- <- <-; simpl;
       try first [lia | done | by left].
  - pose proof (incr_le _ Hcur). lia.
  - right. by repeat split.
Qed.

Lemma C8_growth_step_adds_at_most_one_witness :
  exists s s',
    run (take 7 busy_then_grow) (boot pool_1_1) = Some s /\
    sys_step (MonitorStep 2 false) s = Some s' /\
    currentThreads (pool s') <= currentThreads (pool s) + 1 /\
    threadState (pool s') = threadState (pool s).
Proof.
  eexists. eexists. split; [vm_compute; reflexivity|].
  split; [vm_compute; reflexivity|].
  match goal with
  | |- context [currentThreads (pool ?s') <= currentThreads (pool ?s) + 1] =>
      assert (Hreach : reachable s);
      [ exists "pool", 1, 1, 0, fq0, eq0, pool_1_1, (take 7 busy_then_grow);
        split; [reflexivity | vm_compute; reflexivity]
      | assert (Hstep : sys_step (MonitorStep 2 false) s = Some s')
          by (vm_compute; reflexivity);
        destruct (C8_growth_step_adds_at_most_one s 2 false s' Hreach Hstep)
          as (Hle & _ & Hts & _);
        split; [exact Hle | exact Hts] ]
  end.
Defined.

(** ** C9: no error queue *)

Lemma report_errors_no_queue p tid retVals :
  errorQueue p = None -> report_errors p tid retVals = ([], Completed).
Proof. unfold report_errors. by intros ->. Qed.

Lemma threadRunner_step_no_queue tid pc p pc' p' sent :
  errorQueue p = None ->
  threadRunner_step tid pc p = Some (pc', p', sent) -> sent = [].
Proof.
  intros Hq. destruct pc; simpl; try discriminate;
    try (by intros [= <- <- <-]).
  - by destruct (currentThreads p >? minThreads p); intros [= <- <- <-].
  - rewrite report_errors_no_queue by done. by intros [= <- <- <-].
Qed.

Lemma step_no_error_queue a s s' :
  no_error_queue s -> step s a s' -> no_error_queue s'.
Proof.
  intros [Hq Hsent] Hstep. split.
  - apply step_config in Hstep as [_ _ _ _ _ Heq]. congruence.
  - destruct Hstep as [| |tid pc pc' p' sent Hw Hs|tid r Hw
                      |tid e pc pc' p' sp Hm Hs].
    + by rewrite launch_all_error_queue.
    + done.
    + simpl. apply threadRunner_step_no_queue in Hs as ->; [|done].
      by rewrite app_nil_r.
    + done.
    + by rewrite launch_all_error_queue.
Qed.

(** C9.  On a pool constructed with a nil error queue nothing is ever
    enqueued for a user error: in every state of every execution the
    error queue has received nothing, and a worker that has called the
    user function goes back to the loop head, whatever the function
    returned, leaving the pool as it is. *)
Theorem C9_nil_error_queue_drops_errors nm min max idle fq p tr s :
  NewThreadPool nm min max idle fq None = Ok p ->
  run tr (boot p) = Some s ->
  error_queue s = [] /\
  forall tid d,
    workers s !! tid = Some (AtCall d) ->
    exists s',
      sys_step (WorkerStep tid) s = Some s' /\
      workers s' !! tid = Some AtLoopHead /\
      pool s' = pool s /\ error_queue s' = [].
Proof.
  intros Hnew Hrun.
  assert (Hinv : no_error_queue s).
  { eapply (run_invariant no_error_queue); [| |exact Hrun].
    - intros a s1 s2. apply step_no_error_queue.
    - apply NewThreadPool_inv in Hnew as [-> _]. by split. }
  destruct Hinv as [Hq Hsent]. split; [done|].
  intros tid d Hpc. simpl. rewrite Hpc. simpl.
  rewrite report_errors_no_queue by done.
  eexists. split; [reflexivity|]. simpl.
  rewrite lookup_insert_eq, Hsent. by repeat split.
Qed.

Lemma C9_nil_error_queue_drops_errors_witness :
  exists s,
    NewThreadPool "pool" 1 1 0 fq0 None = Ok pool_1_1_no_eq /\
    run (take 5 user_error) (boot pool_1_1_no_eq) = Some s /\
    workers s !! 1 = Some (AtCall failing) /\
    error_queue s = [] /\
    exists s',
      sys_step (WorkerStep 1) s = Some s' /\
      workers s' !! 1 = Some AtLoopHead /\
      pool s' = pool s /\ error_queue s' = [].
Proof.
  eexists. split; [reflexivity|]. split; [vm_compute; reflexivity|].
  split; [reflexivity|].
  match goal with
  | |- error_queue ?s = [] /\ _ =>
      assert (Hrun : run (take 5 user_error) (boot pool_1_1_no_eq) = Some s)
        by (vm_compute; reflexivity);
      destruct (C9_nil_error_queue_drops_errors "pool" 1 1 0 fq0
                  pool_1_1_no_eq (take 5 user_error) s eq_refl Hrun)
        as [Hnone Hcall];
      split; [exact Hnone | exact (Hcall 1 failing eq_refl)]
  end.
Defined.

(** ** C10: what Close and the other operations leave alone *)

(** C10.  Close writes the closed flag and nothing else, so a second
    Close changes nothing; and in every state of every execution the
    configuration accessors return the values the pool was constructed
    with. *)
Theorem C10_Close_and_configuration_frame nm min max idle fq eq p tr s :
  NewThreadPool nm min max idle fq eq = Ok p ->
  run tr (boot p) = Some s ->
  (forall q,
     closed (Close q) = true /\
     name (Close q) = name q /\ minThreads (Close q) = minThreads q /\
     maxThreads (Close q) = maxThreads q /\ idleDecay (Close q) = idleDecay q /\
     functionalQueue (Close q) = functionalQueue q /\
     errorQueue (Close q) = errorQueue q /\ started (Close q) = started q /\
     currentThreads (Close q) = currentThreads q /\
     threadState (Close q) = threadState q /\
     Close (Close q) = Close q) /\
  GetName (pool s) = nm /\ GetMinThreads (pool s) = min /\
  GetMaxThreads (pool s) = max /\ GetIdleDecayDuration (pool s) = idle /\
  GetFunctionQueue (pool s) = fq /\ GetErrorQueue (pool s) = eq.
Proof.
  intros Hnew Hrun. split; [intros q; by repeat split|].
  apply run_config in Hrun as [Hn Hmin Hmax Hidle Hfq Heq].
  apply NewThreadPool_inv in Hnew as [-> _]. simpl in *.
  unfold GetName, GetMinThreads, GetMaxThreads, GetIdleDecayDuration,
    GetFunctionQueue, GetErrorQueue.
  by repeat split.
Qed.

Lemma C10_Close_and_configuration_frame_witness :
  exists s,
    NewThreadPool "pool" 1 1 0 fq0 eq0 = Ok pool_1_1 /\
    run full_run (boot pool_1_1) = Some s /\
    closed (pool s) = true /\ workers s !! 1 = Some Exited /\
    GetName (pool s) = "pool" /\ GetMinThreads (pool s) = 1 /\
    GetMaxThreads (pool s) = 1 /\ GetIdleDecayDuration (pool s) = 0 /\
    GetFunctionQueue (pool s) = fq0 /\ GetErrorQueue (pool s) = eq0.
Proof.
  eexists. split; [reflexivity|]. split; [vm_compute; reflexivity|].
  do 2 (split; [reflexivity|]).
  match goal with
  | |- GetName (pool ?s) = _ /\ _ =>
      assert (Hrun : run full_run (boot pool_1_1) = Some s)
        by (vm_compute; reflexivity);
      exact (proj2 (C10_Close_and_configuration_frame "pool" 1 1 0 fq0 eq0
                      pool_1_1 full_run s eq_refl Hrun))
  end.
Defined.

(** * Further properties of the pool *)

(** ** Construction, in full *)

(** X1.  NewThreadPool returns a pool exactly when min >= 0, max >= 1,
    max <= min and fq is not nil, and the pool it returns carries the
    arguments, is neither started nor closed, counts zero threads and
    has an empty threadState. *)
Theorem X1_NewThreadPool_accepts_exactly nm min max idle fq eq p :
  NewThreadPool nm min max idle fq eq = Ok p <->
  0 <= min /\ 1 <= max /\ max <= min /\ fq <> None /\
  p = mkThreadPool nm false false min max idle fq eq 0 ∅.
Proof.
  split.
  - intros H. apply NewThreadPool_inv in H as (-> & ? & ? & ? & ?). done.
  - intros (H0 & H1 & Hle & Hfq & ->). unfold NewThreadPool.
    destruct (Z.ltb_spec min 0); [lia|]. destruct (Z.ltb_spec max 1); [lia|].
    destruct (Z.ltb_spec min max); [lia|]. by destruct fq.
Qed.

(** X2.  The error of NewThreadPool names the first test that fails, in
    the order min < 0, max < 1, min < max, fq nil: each error is returned
    only when its own test fails and all the tests before it pass. *)
Theorem X2_NewThreadPool_reports_first_failure nm min max idle fq eq e :
  NewThreadPool nm min max idle fq eq = Err e ->
  (e = ErrMinBelowZero min /\ min < 0) \/
  (e = ErrMaxBelowOne max /\ 0 <= min /\ max < 1) \/
  (e = ErrMinLessThanMax min max /\ 0 <= min /\ 1 <= max /\ min < max) \/
  (e = ErrNoFunctionalQueue /\ 0 <= min /\ 1 <= max /\ max <= min /\ fq = None).
Proof.
  unfold NewThreadPool.
  destruct (Z.ltb_spec min 0); [intros [= <-]; by left|].
  destruct (Z.ltb_spec max 1); [intros [= <-]; right; by left|].
  destruct (Z.ltb_spec min max); [intros [= <-]; right; right; by left|].
  destruct fq; [done|]. intros [= <-]. by repeat right.
Qed.

Lemma X2_NewThreadPool_reports_first_failure_witness :
  NewThreadPool "pool" (-1) 0 0 None None = Err (ErrMinBelowZero (-1)) /\
  ((ErrMinBelowZero (-1) = ErrMinBelowZero (-1) /\ -1 < 0) \/
   (ErrMinBelowZero (-1) = ErrMaxBelowOne 0 /\ 0 <= -1 /\ 0 < 1) \/
   (ErrMinBelowZero (-1) = ErrMinLessThanMax (-1) 0 /\
    0 <= -1 /\ 1 <= 0 /\ -1 < 0) \/
   (ErrMinBelowZero (-1) = ErrNoFunctionalQueue /\
    0 <= -1 /\ 1 <= 0 /\ 0 <= -1 /\ @None handle = None)).
Proof.
  split; [reflexivity|].
  exact (X2_NewThreadPool_reports_first_failure "pool" (-1) 0 0 None None
           (ErrMinBelowZero (-1)) eq_refl).
Defined.

(** ** Start, on any pool *)

(** X3.  Whatever state the pool is in, as long as the int32 counter
    does not overflow, Start adds minThreads to currentThreads, hands
    minThreads workers and then one monitor to the launcher, sets
    started, returns no error, and leaves closed, threadState and the
    configuration as they are. *)
Theorem X3_Start_adds_min p :
  Int32.in_range (currentThreads p) -> 0 <= minThreads p ->
  currentThreads p + minThreads p <= Int32.max_int ->
  Start p =
  (mkThreadPool (name p) true (closed p) (minThreads p) (maxThreads p)
     (idleDecay p) (functionalQueue p) (errorQueue p)
     (currentThreads p + minThreads p) (threadState p),
   replicate (Z.to_nat (minThreads p)) threadRunner_task ++ [monitor_task],
   None).
Proof.
  intros Hcur Hmin Hsum. rewrite Start_spec.
  rewrite iter_incr_no_wrap by (done || lia).
  unfold set_started, set_currentThreads. simpl. do 3 f_equal. lia.
Qed.

Lemma X3_Start_adds_min_witness :
  Start (Start pool_2_2).1.1 =
  (mkThreadPool "pool" true false 2 2 0 fq0 eq0 4 ∅,
   [threadRunner_task; threadRunner_task; monitor_task], None).
Proof.
  apply (X3_Start_adds_min (Start pool_2_2).1.1).
  - vm_compute. split; discriminate.
  - vm_compute. discriminate.
  - vm_compute. discriminate.
Defined.

(** ** The growth step, exactly *)

(** X4.  monitorOnce launches one worker exactly when the queue is not
    empty, currentThreads is at most maxThreads and no entry of
    threadState is WAITING, and launches nothing otherwise; a pool whose
    workers have not registered yet (empty threadState) therefore grows. *)
Theorem X4_monitorOnce_grows_exactly_when isEmpty p :
  ((monitorOnce isEmpty p).2 = [threadRunner_task] <->
   isEmpty = false /\ currentThreads p <= maxThreads p /\
   forall tid st, threadState p !! tid = Some st -> st <> WAITING) /\
  ((monitorOnce isEmpty p).2 = [] \/
   (monitorOnce isEmpty p).2 = [threadRunner_task]) /\
  (isEmpty = false /\ currentThreads p <= maxThreads p /\ threadState p = ∅ ->
   (monitorOnce isEmpty p).2 = [threadRunner_task]).
Proof.
  assert (Hiff : (monitorOnce isEmpty p).2 = [threadRunner_task] <->
    isEmpty = false /\ currentThreads p <= maxThreads p /\
    forall tid st, threadState p !! tid = Some st -> st <> WAITING).
  { rewrite <- allBusy_spec. unfold monitorOnce.
    destruct isEmpty; simpl; [split; [done|by intros [? _]]|].
    destruct (Z.gtb_spec (currentThreads p) (maxThreads p)); simpl.
    - split; [done|]. intros (_ & ? & _). lia.
    - destruct (allBusy (threadState p)); simpl.
      + split; [|done]. intros _. repeat split. lia.
      + split; [done|]. by intros (_ & _ & ?). }
  split; [exact Hiff|]. split.
  - unfold monitorOnce.
    destruct isEmpty, (currentThreads p >? maxThreads p),
      (allBusy (threadState p)); simpl; auto.
  - intros (He & Hle & Hts). apply Hiff. repeat split; try done.
    intros tid st. by rewrite Hts, lookup_empty.
Qed.

(** ** Inspecting results, in general *)

Lemma is_reported_spec v :
  is_reported v = if nilable (reflect.kind v) then Returns false else Panics.
Proof.
  unfold is_reported, reflect.IsNil, reflect.CanInterface, reflect.ToString.
  destruct (reflect.kind v); simpl; try done;
    destruct (reflect.is_nil v); try done;
    destruct (negb (reflect.read_only v)); try done;
    by rewrite bool_decide_eq_false_2.
Qed.

Lemma scan_retVals_completes_iff tid retVals : forall sent,
  (scan_retVals tid retVals sent).2 = Completed <->
  Forall (fun v => nilable (reflect.kind v) = true) retVals.
Proof.
  induction retVals as [|v rest IH]; intros sent; simpl.
  - split; [constructor|done].
  - rewrite is_reported_spec. destruct (nilable (reflect.kind v)) eqn:Hk.
    + rewrite IH. split; [by constructor|]. by inversion 1.
    + simpl. split; [done|]. inversion 1. congruence.
Qed.

(** X5.  On a pool with an error queue the inspection of the results of
    a user call goes through exactly when every result is of a kind
    that can be nil (chan, func, interface, map, pointer, slice, unsafe
    pointer); any other result, an int or a string, makes IsNil panic.
    Whether it goes through or not, it enqueues nothing. *)
Theorem X5_report_errors_completes_iff p tid retVals :
  errorQueue p <> None ->
  ((report_errors p tid retVals).2 = Completed <->
   Forall (fun v => nilable (reflect.kind v) = true) retVals) /\
  (report_errors p tid retVals).1 = [].
Proof.
  intros Hq. unfold report_errors. destruct (errorQueue p); [|done].
  destruct retVals as [|v rest].
  - simpl. split; [split; [constructor|done]|done].
  - replace (0 <? Z.of_nat (length (v :: rest))) with true
      by (symmetry; apply Z.ltb_lt; simpl; lia).
    split; [apply scan_retVals_completes_iff|apply scan_retVals_sends_nothing].
Qed.

Lemma X5_report_errors_completes_iff_witness :
  ((report_errors pool_1_1 1 [zero; boom]).2 = Completed <->
   Forall (fun v => nilable (reflect.kind v) = true) [zero; boom]) /\
  (report_errors pool_1_1 1 [zero; boom]).1 = [].
Proof.
  apply (X5_report_errors_completes_iff pool_1_1 1 [zero; boom]).
  discriminate.
Defined.

(** ** The helpers of threadState *)

(** X6.  changeMapState writes the entry of one tid and deleteMapTid
    removes it: the entry reads back as written, the entries of the
    other tids and every other field stay, removing after writing is
    removing, and for a tid without entry writing then removing gives
    the pool back. *)
Theorem X6_changeMapState_deleteMapTid tid st p :
  threadState (changeMapState tid st p) !! tid = Some st /\
  threadState (deleteMapTid tid p) !! tid = None /\
  (forall other, other <> tid ->
     threadState (changeMapState tid st p) !! other = threadState p !! other /\
     threadState (deleteMapTid tid p) !! other = threadState p !! other) /\
  set_threadState (threadState p) (changeMapState tid st p) = p /\
  set_threadState (threadState p) (deleteMapTid tid p) = p /\
  deleteMapTid tid (changeMapState tid st p) = deleteMapTid tid p /\
  (threadState p !! tid = None ->
   deleteMapTid tid (changeMapState tid st p) = p).
Proof.
  unfold changeMapState, deleteMapTid, set_threadState. simpl.
  split_and!.
  - apply lookup_insert_eq.
  - apply lookup_delete_eq.
  - intros other Hne. by rewrite lookup_insert_ne, lookup_delete_ne.
  - by destruct p.
  - by destruct p.
  - by rewrite delete_insert_eq.
  - intros Hnone. rewrite delete_insert_eq, delete_id by done. by destruct p.
Qed.

(** ** Counting under insertion *)

Lemma count_where_empty {A} (f : A -> bool) : count_where f (∅ : gmap Z A) = 0.
Proof. unfold count_where. by rewrite map_filter_empty, map_size_empty. Qed.

Lemma count_where_nonneg {A} (f : A -> bool) (m : gmap Z A) :
  0 <= count_where f m.
Proof. unfold count_where. lia. Qed.

(** Writing [y] at [i] takes the old value out of the count and puts
    the new one in. *)
Lemma count_where_insert {A} (f : A -> bool) (m : gmap Z A) i y :
  count_where f (<[i := y]> m) =
  count_where f m
  - match m !! i with Some x => Z.b2z (f x) | None => 0 end
  + Z.b2z (f y).
Proof.
  unfold count_where. set (P := fun kv : Z * A => f kv.2 = true).
  assert (Hlook : filter P m !! i =
                  match m !! i with
                  | Some x => if f x then Some x else None
                  | None => None
                  end).
  { destruct (m !! i) as [x|] eqn:Hi.
    - destruct (f x) eqn:Hfx.
      + apply map_lookup_filter_Some. by split.
      + apply map_lookup_filter_None. right. intros x' Hx'.
        assert (x' = x) as -> by congruence. unfold P. simpl. congruence.
    - apply map_lookup_filter_None. by left. }
  rewrite map_filter_insert. destruct (f y) eqn:Hfy.
  - rewrite decide_True by done. rewrite map_size_insert, Hlook.
    destruct (m !! i) as [x|]; [destruct (f x)|]; simpl; lia.
  - rewrite decide_False by (unfold P; simpl; congruence).
    rewrite map_filter_delete, map_size_delete, Hlook.
    destruct (m !! i) as [x|] eqn:Hi; [destruct (f x) eqn:Hfx|]; simpl; try lia.
    assert (size (filter P m) <> 0%nat).
    { apply map_size_ne_0_lookup. exists i. rewrite Hlook. eauto. }
    lia.
Qed.

Lemma count_where_insert_le {A} (f : A -> bool) (m : gmap Z A) i y :
  count_where f (<[i := y]> m) <= count_where f m + Z.b2z (f y).
Proof.
  rewrite count_where_insert.
  destruct (m !! i) as [x|]; [destruct (f x)|]; simpl; lia.
Qed.

(** ** What a launch adds *)

Lemma launch_all_app ts1 ts2 s :
  launch_all (ts1 ++ ts2) s = launch_all ts2 (launch_all ts1 s).
Proof. unfold launch_all. by rewrite foldl_app. Qed.

Lemma launch_all_monitors_of_workers n s :
  monitors (launch_all (replicate n threadRunner_task) s) = monitors s.
Proof.
  revert s. induction n as [|n IH]; intros s; [done|].
  simpl replicate. by rewrite launch_all_cons, IH.
Qed.

Lemma launch_all_next_tid ts s :
  next_tid (launch_all ts s) = next_tid s + Z.of_nat (length ts).
Proof.
  revert s. induction ts as [|t ts IH]; intros s; [simpl; lia|].
  rewrite launch_all_cons, IH. destruct t; simpl; lia.
Qed.

Lemma launch_all_launched_length ts s :
  length (launched (launch_all ts s)) = (length (launched s) + length ts)%nat.
Proof.
  rewrite <- (length_fmap snd), launch_all_launched, length_app, length_fmap.
  done.
Qed.

Lemma workers_launched_length s :
  Z.of_nat (length (workers_launched s)) = count_runners (launched s).*2.
Proof.
  unfold workers_launched, count_runners. f_equal.
  induction (launched s) as [|[k t] l IH]; [done|].
  rewrite fmap_cons, !filter_cons. simpl.
  destruct (decide (t = threadRunner_task)); simpl; by rewrite IH.
Qed.

Lemma count_runners_app ts1 ts2 :
  count_runners (ts1 ++ ts2) = count_runners ts1 + count_runners ts2.
Proof. unfold count_runners. rewrite filter_app, length_app. lia. Qed.

Lemma count_runners_cons t ts :
  count_runners (t :: ts) =
  (if decide (t = threadRunner_task) then 1 else 0) + count_runners ts.
Proof.
  unfold count_runners. rewrite filter_cons.
  destruct (decide (t = threadRunner_task)); simpl length; lia.
Qed.

Lemma count_runners_replicate n :
  count_runners (replicate n threadRunner_task) = Z.of_nat n.
Proof.
  induction n as [|n IH]; [done|].
  cbn [replicate]. rewrite count_runners_cons, IH, decide_True by done. lia.
Qed.

Lemma workers_launched_launch_all ts s :
  Z.of_nat (length (workers_launched (launch_all ts s))) =
  Z.of_nat (length (workers_launched s)) + count_runners ts.
Proof.
  by rewrite !workers_launched_length, launch_all_launched, count_runners_app.
Qed.

Lemma workers_in_loop_launch_all ts s :
  workers_in_loop (launch_all ts s) <= workers_in_loop s + count_runners ts.
Proof.
  revert s. induction ts as [|t ts IH]; intros s.
  - unfold count_runners. simpl. lia.
  - rewrite launch_all_cons, count_runners_cons. etrans; [apply IH|].
    destruct t; unfold workers_in_loop; simpl.
    + pose proof (count_where_insert_le in_loop (workers s) (next_tid s)
                    AtLoopHead) as H.
      simpl in H. lia.
    + lia.
Qed.

(** ** The thread count never undercounts *)

Lemma workers_launched_le s :
  Z.of_nat (length (workers_launched s)) <= Z.of_nat (length (launched s)).
Proof.
  unfold workers_launched.
  pose proof (length_filter (fun l : Z * task => l.2 = threadRunner_task)
                (launched s)).
  lia.
Qed.

(** A step of a worker keeps the count and stays in the loop or leaves
    it, or takes one off the count and leaves the loop. *)
Lemma threadRunner_step_count tid pc p pc' p' sent :
  threadRunner_step tid pc p = Some (pc', p', sent) ->
  (currentThreads p' = currentThreads p /\
   Z.b2z (in_loop pc') <= Z.b2z (in_loop pc)) \/
  (currentThreads p' = Int32.decr (currentThreads p) /\
   in_loop pc = true /\ in_loop pc' = false).
Proof.
  destruct pc; simpl; try discriminate;
    try (intros [= <- <- <-]; simpl; (by left) || (by right)).
  - intros [= <- <- <-]. left. by destruct (IsClosed p).
  - destruct (currentThreads p >? minThreads p); intros [= <- <- <-]; simpl;
      [by right|by left].
  - destruct (report_errors p tid (invoke d)) as [sent' []];
      intros [= <- <- <-]; by left.
Qed.

Lemma boot_count_inv p : currentThreads p = 0 -> count_inv (boot p).
Proof.
  intros Hp. split; [done|]. intros _. unfold workers_in_loop. simpl.
  rewrite count_where_empty, Hp. done.
Qed.

Lemma step_count_inv a s s' : count_inv s -> step s a s' -> count_inv s'.
Proof.
  intros [Htid Hb] Hstep.
  pose proof (workers_launched_le s) as Hwl.
  pose proof (count_where_nonneg in_loop (workers s)) as Hnn.
  destruct Hstep as [| |tid pc pc' p' sent Hw Hs|tid r Hw
                    |tid e pc pc' p' sp Hm Hs].
  - rewrite Start_spec. simpl.
    set (n := Z.to_nat (minThreads (pool s))).
    split.
    + rewrite launch_all_next_tid, launch_all_launched_length, length_app,
        length_replicate. simpl. lia.
    + rewrite launch_all_next_tid, length_app, length_replicate. simpl.
      intros Hbound. destruct Hb as [Hlo Hhi]; [lia|].
      rewrite launch_all_pool, workers_launched_launch_all. simpl.
      rewrite count_runners_app, count_runners_replicate.
      change (count_runners [monitor_task]) with 0.
      rewrite iter_incr_no_wrap.
      * split; [|unfold workers_launched in *; simpl; lia].
        etrans; [apply workers_in_loop_launch_all|].
        rewrite count_runners_app, count_runners_replicate.
        change (count_runners [monitor_task]) with 0.
        unfold workers_in_loop in *. simpl. lia.
      * unfold Int32.in_range, Int32.min_int, Int32.max_int in *.
        unfold workers_in_loop in *. lia.
      * unfold workers_in_loop in *. lia.
  - split; [done|]. exact Hb.
  - split; [done|]. simpl. intros Hbound. destruct (Hb Hbound) as [Hlo Hhi].
    unfold workers_in_loop in *. simpl.
    pose proof (count_where_nonneg in_loop (<[tid := pc']> (workers s))) as Hnn'.
    rewrite count_where_insert, Hw in *.
    unfold workers_launched in *. simpl.
    destruct (threadRunner_step_count _ _ _ _ _ _ Hs)
      as [[-> Hle] | (-> & Hin & Hout)]; [lia|].
    rewrite Hin, Hout in *. simpl in *.
    rewrite decr_above.
    + lia.
    + unfold Int32.in_range, Int32.min_int, Int32.max_int in *. lia.
    + unfold Int32.min_int. lia.
  - split; [done|]. simpl. intros Hbound. destruct (Hb Hbound) as [Hlo Hhi].
    unfold workers_in_loop, workers_launched in *. simpl.
    rewrite count_where_insert, Hw. simpl.
    destruct r; simpl; lia.
  - destruct pc; simpl in Hs; try discriminate.
    + injection Hs as <- <- <-. split; [done|]. exact Hb.
    + injection Hs as <- <- <-. split; [done|]. exact Hb.
    + unfold monitorOnce in Hs.
      destruct e; [injection Hs as <- <- <-; split; [done|exact Hb]|].
      destruct (currentThreads (pool s) >? maxThreads (pool s));
        [injection Hs as <- <- <-; split; [done|exact Hb]|].
      destruct (allBusy (threadState (pool s)));
        [|injection Hs as <- <- <-; split; [done|exact Hb]].
      injection Hs as <- <- <-. split.
      * rewrite launch_all_next_tid, launch_all_launched_length. simpl. lia.
      * rewrite launch_all_next_tid. intros Hbound. simpl in Hbound.
        destruct Hb as [Hlo Hhi]; [lia|].
        rewrite launch_all_pool, workers_launched_launch_all.
        change (count_runners [threadRunner_task]) with 1.
        cbn [pool currentThreads set_currentThreads].
        rewrite incr_below.
        -- split; [|unfold workers_launched in *; simpl; lia].
           etrans; [apply workers_in_loop_launch_all|].
           change (count_runners [threadRunner_task]) with 1.
           unfold workers_in_loop in *. simpl. lia.
        -- unfold Int32.in_range, Int32.min_int, Int32.max_int in *.
           unfold workers_in_loop in *. lia.
        -- lia.
Qed.

Lemma reachable_count_inv s : reachable s -> count_inv s.
Proof.
  intros (nm & min & max & idle & fq & eq & p & tr & Hnew & Hrun).
  eapply (run_invariant count_inv); [| |exact Hrun].
  - intros a s1 s2. apply step_count_inv.
  - apply boot_count_inv. by apply NewThreadPool_inv in Hnew as [-> _].
Qed.

(** X7.  As long as fewer than 2^31 - 1 tasks have been launched,
    currentThreads is at least the number of workers that are still in
    their loop and at most the number of workers launched so far: the
    count may keep a worker that is gone, but never misses one that is
    there. *)
Theorem X7_currentThreads_never_undercounts s :
  reachable s -> next_tid s <= Int32.max_int ->
  workers_in_loop s <= currentThreads (pool s) /\
  currentThreads (pool s) <= Z.of_nat (length (workers_launched s)).
Proof. intros Hreach. by apply reachable_count_inv. Qed.

Lemma reachable_intro nm min max idle fq eq p tr s :
  NewThreadPool nm min max idle fq eq = Ok p -> run tr (boot p) = Some s ->
  reachable s.
Proof. intros Hnew Hrun. by exists nm, min, max, idle, fq, eq, p, tr. Qed.

Lemma X7_currentThreads_never_undercounts_witness :
  exists s,
    run busy_then_grow (boot pool_1_1) = Some s /\
    next_tid s <= Int32.max_int /\
    workers_in_loop s <= currentThreads (pool s) /\
    currentThreads (pool s) <= Z.of_nat (length (workers_launched s)).
Proof.
  eexists. split; [vm_compute; reflexivity|].
  split; [vm_compute; discriminate|].
  match goal with
  | |- workers_in_loop ?s <= _ /\ _ =>
      assert (Hrun : run busy_then_grow (boot pool_1_1) = Some s)
        by (vm_compute; reflexivity);
      apply (X7_currentThreads_never_undercounts s
               (reachable_intro "pool" 1 1 0 fq0 eq0 pool_1_1 busy_then_grow s
                  eq_refl Hrun));
      vm_compute; discriminate
  end.
Defined.

(** ** The entries of threadState follow the workers *)

(** A step of worker [tid] leaves the entries of the other tids alone. *)
Lemma threadRunner_step_other tid pc p pc' p' sent other :
  threadRunner_step tid pc p = Some (pc', p', sent) -> other <> tid ->
  threadState p' !! other = threadState p !! other.
Proof.
  intros Hs Hne. destruct pc; simpl in Hs; try discriminate;
    try (injection Hs as <- <- <-; simpl;
         by rewrite ?lookup_insert_ne, ?lookup_delete_ne).
  - by destruct (currentThreads p >? minThreads p); injection Hs as <- <- <-.
  - destruct (report_errors p tid (invoke d)). by injection Hs as <- <- <-.
Qed.

(** The entry of worker [tid] after its own step is the one its new
    program point asks for, and is gone once the worker is. *)
Lemma threadRunner_step_own tid pc p pc' p' sent :
  threadRunner_step tid pc p = Some (pc', p', sent) ->
  (forall e, entry_at pc = Some e -> threadState p !! tid = e) ->
  (forall e, entry_at pc' = Some e -> threadState p' !! tid = e) /\
  (is_Some (threadState p' !! tid) -> is_live pc' = true).
Proof.
  intros Hs Hold. destruct pc; simpl in Hs; try discriminate.
  - injection Hs as <- <- <-. by destruct (IsClosed p).
  - by injection Hs as <- <- <-.
  - injection Hs as <- <- <-. simpl. rewrite lookup_insert_eq.
    split; [by intros e [= <-]|done].
  - destruct (currentThreads p >? minThreads p); by injection Hs as <- <- <-.
  - injection Hs as <- <- <-. simpl. rewrite lookup_insert_eq.
    split; [by intros e [= <-]|done].
  - destruct (report_errors p tid (invoke d)) as [sent' []];
      by injection Hs as <- <- <-.
  - injection Hs as <- <- <-. simpl. rewrite lookup_delete_eq.
    split; [by intros e [= <-]|by intros [? ?]].
  - injection Hs as <- <- <-. simpl. rewrite lookup_delete_eq.
    split; [by intros e [= <-]|by intros [? ?]].
Qed.

Lemma monitor_step_threadState pc e p pc' p' spawned :
  monitor_step pc e p = Some (pc', p', spawned) ->
  threadState p' = threadState p.
Proof.
  destruct pc; simpl; try discriminate; try (by intros [= <- <- <-]).
  unfold monitorOnce.
  by destruct e, (currentThreads p >? maxThreads p), (allBusy (threadState p));
    intros [= <- <- <-].
Qed.

Lemma entries_follow_workers_ext s1 s2 :
  workers s2 = workers s1 ->
  threadState (pool s2) = threadState (pool s1) ->
  entries_follow_workers s1 -> entries_follow_workers s2.
Proof. intros Hw Hts [Ha Hb]. split; rewrite Hw, Hts; done. Qed.

Lemma GoWithArgs_entries t s :
  entries_follow_workers s -> entries_follow_workers (GoWithArgs t s).
Proof.
  intros [Ha Hb]. destruct t; [|by split]. split; simpl.
  - intros tid pc e. rewrite lookup_insert. case_decide.
    + by intros [= <-].
    + apply Ha.
  - intros tid st Hst. rewrite lookup_insert. case_decide.
    + by exists AtLoopHead.
    + by eapply Hb.
Qed.

Lemma launch_all_entries ts s :
  entries_follow_workers s -> entries_follow_workers (launch_all ts s).
Proof.
  revert s. induction ts as [|t ts IH]; intros s Hs; [done|].
  rewrite launch_all_cons. by apply IH, GoWithArgs_entries.
Qed.

Lemma step_entries a s s' :
  entries_follow_workers s -> step s a s' -> entries_follow_workers s'.
Proof.
  intros Hinv Hstep.
  destruct Hstep as [| |tid pc pc' p' sent Hw Hs|tid r Hw
                    |tid e pc pc' p' sp Hm Hs].
  - apply launch_all_entries.
    eapply entries_follow_workers_ext; [| |exact Hinv]; [done|].
    simpl. by rewrite Start_spec.
  - by eapply entries_follow_workers_ext; [| |exact Hinv].
  - destruct Hinv as [Ha Hb].
    destruct (threadRunner_step_own _ _ _ _ _ _ Hs) as [Hown Hlive];
      [intros e; by apply Ha|].
    split; simpl.
    + intros other pc0 e. rewrite lookup_insert. case_decide.
      * subst other. intros [= <-]. apply Hown.
      * intros Hpc0 He.
        rewrite (threadRunner_step_other _ _ _ _ _ _ _ Hs) by done.
        by eapply Ha.
    + intros other st. rewrite lookup_insert. case_decide.
      * subst other. intros Hst. exists pc'. split; [done|].
        apply Hlive. by eexists.
      * rewrite (threadRunner_step_other _ _ _ _ _ _ _ Hs) by done.
        apply Hb.
  - destruct Hinv as [Ha Hb].
    pose proof (Ha tid AtDequeue (Some WAITING) Hw eq_refl) as Hwait.
    split; simpl.
    + intros other pc0 e. rewrite lookup_insert. case_decide.
      * subst other. intros [= <-]. destruct r; simpl; by intros [= <-].
      * apply Ha.
    + intros other st Hst. rewrite lookup_insert. case_decide.
      * subst other. eexists. split; [done|]. by destruct r.
      * by eapply Hb.
  - apply launch_all_entries.
    eapply entries_follow_workers_ext; [| |exact Hinv]; [done|].
    simpl. by eapply monitor_step_threadState.
Qed.

Lemma reachable_entries s : reachable s -> entries_follow_workers s.
Proof.
  intros (nm & min & max & idle & fq & eq & p & tr & Hnew & Hrun).
  eapply (run_invariant entries_follow_workers); [| |exact Hrun].
  - intros a s1 s2. apply step_entries.
  - apply NewThreadPool_inv in Hnew as [-> _]. split; simpl.
    + intros tid pc e. by rewrite lookup_empty.
    + intros tid st. by rewrite lookup_empty.
Qed.

(** X8.  In every state of every execution the threadState entry of a
    worker is WAITING while the worker is in Dequeue or has just come
    out of it, RUNNING while it calls the user function, and absent once
    the worker has returned or crashed; and every entry belongs to a
    launched worker that has not returned or crashed. *)
Theorem X8_threadState_follows_the_workers s :
  reachable s ->
  (forall tid pc,
     workers s !! tid = Some pc ->
     (pc = AtDequeue \/ pc = AtEmptyQueue \/ (exists d, pc = AtMarkRunning d) ->
      threadState (pool s) !! tid = Some WAITING) /\
     ((exists d, pc = AtCall d) ->
      threadState (pool s) !! tid = Some RUNNING) /\
     (pc = Exited \/ pc = Crashed -> threadState (pool s) !! tid = None)) /\
  (forall tid st,
     threadState (pool s) !! tid = Some st ->
     exists pc, workers s !! tid = Some pc /\ is_live pc = true).
Proof.
  intros Hreach. apply reachable_entries in Hreach as [Ha Hb].
  split; [|exact Hb]. intros tid pc Hpc. split_and!.
  - intros [-> | [-> | [d ->]]]; by eapply Ha.
  - intros [d ->]. by eapply Ha.
  - intros [-> | ->]; by eapply Ha.
Qed.

Lemma X8_threadState_follows_the_workers_witness :
  exists s,
    run (take 6 busy_then_grow) (boot pool_1_1) = Some s /\
    workers s !! 1 = Some (AtCall quiet) /\
    threadState (pool s) !! 1 = Some RUNNING.
Proof.
  eexists. split; [vm_compute; reflexivity|]. split; [reflexivity|].
  match goal with
  | |- threadState (pool ?s) !! 1 = _ =>
      assert (Hrun : run (take 6 busy_then_grow) (boot pool_1_1) = Some s)
        by (vm_compute; reflexivity);
      destruct (X8_threadState_follows_the_workers s
                  (reachable_intro "pool" 1 1 0 fq0 eq0 pool_1_1
                     (take 6 busy_then_grow) s eq_refl Hrun)) as [Hw _];
      destruct (Hw 1 (AtCall quiet) eq_refl) as (_ & Hcall & _);
      apply Hcall; by exists quiet
  end.
Defined.

(** ** What a worker's step leaves alone *)

Lemma threadRunner_step_flags tid pc p pc' p' sent :
  threadRunner_step tid pc p = Some (pc', p', sent) ->
  started p' = started p /\ closed p' = closed p.
Proof.
  destruct pc; simpl; try discriminate; try (by intros [= <- <- <-]).
  - by destruct (currentThreads p >? minThreads p); intros [= <- <- <-].
  - destruct (report_errors p tid (invoke d)). by intros [= <- <- <-].
Qed.

(** X9.  A step of a worker launches nothing and leaves started, closed,
    the monitors, and the program points and threadState entries of all
    other workers as they are; to currentThreads it does nothing or
    takes one off. *)
Theorem X9_worker_step_frame s tid s' :
  sys_step (WorkerStep tid) s = Some s' ->
  started (pool s') = started (pool s) /\
  closed (pool s') = closed (pool s) /\
  launched s' = launched s /\ monitors s' = monitors s /\
  (currentThreads (pool s') = currentThreads (pool s) \/
   currentThreads (pool s') = Int32.decr (currentThreads (pool s))) /\
  forall other, other <> tid ->
    workers s' !! other = workers s !! other /\
    threadState (pool s') !! other = threadState (pool s) !! other.
Proof.
  intros Hstep. apply sys_step_sound in Hstep.
  inversion Hstep as [| |? pc pc' p' sent Hw Hs| |]; subst. simpl.
  destruct (threadRunner_step_flags _ _ _ _ _ _ Hs) as [Hst Hcl].
  split_and!; try done.
  - destruct (threadRunner_step_count _ _ _ _ _ _ Hs) as [[? _]|[? _]]; auto.
  - intros other Hne. split.
    + by rewrite lookup_insert_ne.
    + by eapply threadRunner_step_other.
Qed.

Lemma X9_worker_step_frame_witness :
  exists s s',
    run (take 2 dequeue_fails) (boot pool_1_1) = Some s /\
    sys_step (WorkerStep 1) s = Some s' /\
    launched s' = launched s /\ monitors s' = monitors s.
Proof.
  eexists. eexists. split; [vm_compute; reflexivity|].
  split; [vm_compute; reflexivity|].
  match goal with
  | |- launched ?s' = launched ?s /\ _ =>
      assert (Hstep : sys_step (WorkerStep 1) s = Some s')
        by (vm_compute; reflexivity);
      destruct (X9_worker_step_frame s 1 s' Hstep)
        as (_ & _ & Hl & Hm & _); by split
  end.
Defined.

(** ** started and closed *)

Lemma step_flags a s s' :
  step s a s' ->
  started (pool s') = started (pool s) || is_start a /\
  closed (pool s') = closed (pool s) || is_close a.
Proof.
  destruct 1 as [| |tid pc pc' p' sent Hw Hs|tid r Hw
                |tid e pc pc' p' sp Hm Hs]; simpl.
  - rewrite launch_all_pool, Start_spec. simpl.
    by rewrite orb_true_r, orb_false_r.
  - by rewrite orb_true_r, orb_false_r.
  - rewrite !orb_false_r. by eapply threadRunner_step_flags.
  - by rewrite !orb_false_r.
  - rewrite launch_all_pool, !orb_false_r. simpl.
    destruct pc; simpl in Hs; try discriminate;
      try (by injection Hs as <- <- <-).
    revert Hs. unfold monitorOnce.
    by destruct e, (currentThreads (pool s) >? maxThreads (pool s)),
      (allBusy (threadState (pool s))); intros [= <- <- <-].
Qed.

(** X10.  Along every execution IsStarted is true exactly when it was
    true before or Start has been called, and IsClosed exactly when it
    was true before or Close has been called: no other step writes the
    two flags, and nothing resets them. *)
Theorem X10_flags_follow_the_client_calls tr s s' :
  run tr s = Some s' ->
  (IsStarted (pool s') = true <->
   IsStarted (pool s) = true \/ Exists (fun a => is_start a = true) tr) /\
  (IsClosed (pool s') = true <->
   IsClosed (pool s) = true \/ Exists (fun a => is_close a = true) tr).
Proof.
  unfold IsStarted, IsClosed. revert s.
  induction tr as [|a tr IH]; intros s; simpl.
  - intros [= <-]. split; (split; [by left|]); by intros [?|?%Exists_nil].
  - destruct (sys_step a s) as [s1|] eqn:E; [|done]. intros Hrun.
    apply sys_step_sound, step_flags in E as [Hst Hcl].
    destruct (IH _ Hrun) as [IHst IHcl].
    rewrite IHst, IHcl, Hst, Hcl, !Exists_cons, !orb_true_iff. tauto.
Qed.

Lemma X10_flags_follow_the_client_calls_witness :
  exists s',
    run close_while_monitor_waits (boot pool_1_1) = Some s' /\
    IsStarted (pool s') = true /\ IsClosed (pool s') = true.
Proof.
  eexists. split; [vm_compute; reflexivity|].
  match goal with
  | |- IsStarted (pool ?s') = true /\ _ =>
      assert (Hrun : run close_while_monitor_waits (boot pool_1_1) = Some s')
        by (vm_compute; reflexivity);
      destruct (X10_flags_follow_the_client_calls _ _ _ Hrun) as [Hst Hcl];
      split; [apply Hst|apply Hcl]; right;
        unfold close_while_monitor_waits; rewrite !Exists_cons; simpl; auto
  end.
Defined.

(** ** Before Start *)

Lemma step_untouched a s s' :
  (started (pool s) = false -> untouched s) -> step s a s' ->
  started (pool s') = false -> untouched s'.
Proof.
  intros Hinv Hstep Hfalse.
  destruct (step_flags _ _ _ Hstep) as [Hst _]. rewrite Hfalse in Hst.
  symmetry in Hst. apply orb_false_iff in Hst as [Hs0 Ha].
  destruct (Hinv Hs0) as [Hw Hm Hl Hc Ht He].
  destruct Hstep as [| |tid pc pc' p' sent Hw' Hs|tid r Hw'
                    |tid e pc pc' p' sp Hm' Hs]; try discriminate.
  - by split.
  - by rewrite Hw, lookup_empty in Hw'.
  - by rewrite Hw, lookup_empty in Hw'.
  - by rewrite Hm, lookup_empty in Hm'.
Qed.

Lemma reachable_untouched s :
  reachable s -> started (pool s) = false -> untouched s.
Proof.
  intros (nm & min & max & idle & fq & eq & p & tr & Hnew & Hrun).
  eapply (run_invariant (fun s => started (pool s) = false -> untouched s));
    [| |exact Hrun].
  - intros a s1 s2. apply step_untouched.
  - intros _. apply NewThreadPool_inv in Hnew as [-> _]. by split.
Qed.

(** X11.  Until Start has been called nothing happens on a pool: in
    every state of an execution in which IsStarted is false no task has
    been launched, currentThreads is 0, threadState is empty and nothing
    has been enqueued on the error queue. *)
Theorem X11_nothing_runs_before_Start s :
  reachable s -> IsStarted (pool s) = false ->
  workers s = ∅ /\ monitors s = ∅ /\ launched s = [] /\
  GetCurrentThreadCount (pool s) = 0 /\ threadState (pool s) = ∅ /\
  error_queue s = [].
Proof. intros Hreach Hfalse. by destruct (reachable_untouched s Hreach Hfalse). Qed.

Lemma X11_nothing_runs_before_Start_witness :
  exists s,
    run [ClientClose; ClientClose] (boot pool_1_1) = Some s /\
    IsStarted (pool s) = false /\
    workers s = ∅ /\ monitors s = ∅ /\ launched s = [] /\
    GetCurrentThreadCount (pool s) = 0 /\ threadState (pool s) = ∅ /\
    error_queue s = [].
Proof.
  eexists. split; [vm_compute; reflexivity|]. split; [reflexivity|].
  match goal with
  | |- workers ?s = ∅ /\ _ =>
      assert (Hrun : run [ClientClose; ClientClose] (boot pool_1_1) = Some s)
        by (vm_compute; reflexivity);
      exact (X11_nothing_runs_before_Start s
               (reachable_intro "pool" 1 1 0 fq0 eq0 pool_1_1
                  [ClientClose; ClientClose] s eq_refl Hrun) eq_refl)
  end.
Defined.

(** ** After Close *)

(** Launching workers leaves the monitors where they are. *)
Lemma monitor_step_spawns_workers_only pc e p pc' p' spawned :
  monitor_step pc e p = Some (pc', p', spawned) ->
  spawned = [] \/ spawned = [threadRunner_task].
Proof.
  destruct pc; simpl; try discriminate; try (intros [= <- <- <-]; by left).
  unfold monitorOnce.
  destruct e, (currentThreads p >? maxThreads p), (allBusy (threadState p));
    intros [= <- <- <-]; auto.
Qed.

(** On a closed pool a monitor that launches a worker comes from
    [MonGrow] and is then at the loop head, where it will read closed;
    any other step of a monitor launches nothing and does not get it
    past the closed test. *)
Lemma monitor_step_closed pc e p pc' p' spawned :
  closed p = true ->
  monitor_step pc e p = Some (pc', p', spawned) ->
  count_runners spawned + Z.b2z (past_closed_test pc') <=
  Z.b2z (past_closed_test pc).
Proof.
  intros Hc. destruct pc; simpl; try discriminate.
  - unfold IsClosed. rewrite Hc. by intros [= <- <- <-].
  - by intros [= <- <- <-].
  - unfold monitorOnce.
    by destruct e, (currentThreads p >? maxThreads p),
      (allBusy (threadState p)); intros [= <- <- <-].
Qed.

Lemma step_after_Close a s s' :
  closed (pool s) = true -> is_start a = false -> step s a s' ->
  Z.of_nat (length (workers_launched s')) + monitors_past_closed_test s' <=
  Z.of_nat (length (workers_launched s)) + monitors_past_closed_test s.
Proof.
  intros Hc Ha Hstep.
  destruct Hstep as [| |tid pc pc' p' sent Hw Hs|tid r Hw
                    |tid e pc pc' p' sp Hm Hs]; try discriminate;
    try (unfold workers_launched, monitors_past_closed_test; simpl; lia).
  pose proof (monitor_step_closed _ _ _ _ _ _ Hc Hs) as Hle.
  rewrite workers_launched_launch_all.
  assert (Hmon : monitors_past_closed_test
                   (launch_all sp
                      (mkSystem p' (workers s) (<[tid := pc']> (monitors s))
                         (next_tid s) (launched s) (error_queue s)))
                 = count_where past_closed_test (<[tid := pc']> (monitors s))).
  { by destruct (monitor_step_spawns_workers_only _ _ _ _ _ _ Hs) as [-> | ->]. }
  rewrite Hmon, count_where_insert, Hm.
  unfold workers_launched, monitors_past_closed_test. simpl. lia.
Qed.

(** X12.  Once the pool is closed, and as long as Start is not called
    again, the workers launched from then on are at most as many as the
    monitors that had already passed their closed test when Close came:
    each of them runs its growth step at most once more. *)
Theorem X12_launches_after_Close_are_bounded tr s s' :
  IsClosed (pool s) = true -> Forall (fun a => is_start a = false) tr ->
  run tr s = Some s' ->
  Z.of_nat (length (workers_launched s')) <=
  Z.of_nat (length (workers_launched s)) + monitors_past_closed_test s.
Proof.
  unfold IsClosed. intros Hc Hno Hrun.
  enough (Z.of_nat (length (workers_launched s')) + monitors_past_closed_test s'
          <= Z.of_nat (length (workers_launched s)) + monitors_past_closed_test s).
  { pose proof (count_where_nonneg past_closed_test (monitors s')).
    unfold monitors_past_closed_test in *. lia. }
  revert s Hc Hrun. induction Hno as [|a tr Ha Hno IH]; intros s Hc; simpl.
  - intros [= <-]. lia.
  - destruct (sys_step a s) as [s1|] eqn:E; [|done]. intros Hrun.
    apply sys_step_sound in E.
    pose proof (step_after_Close _ _ _ Hc Ha E).
    pose proof (IH s1 (step_closed _ _ _ E Hc) Hrun). lia.
Qed.

Lemma X12_launches_after_Close_are_bounded_witness :
  exists s s',
    run close_while_busy (boot pool_1_1) = Some s /\
    run wind_down s = Some s' /\
    monitors_past_closed_test s = 1 /\
    Z.of_nat (length (workers_launched s')) <=
    Z.of_nat (length (workers_launched s)) + monitors_past_closed_test s.
Proof.
  eexists. eexists. split; [vm_compute; reflexivity|].
  split; [vm_compute; reflexivity|]. split; [reflexivity|].
  match goal with
  | |- Z.of_nat (length (workers_launched ?s')) <=
       Z.of_nat (length (workers_launched ?s)) + _ =>
      apply (X12_launches_after_Close_are_bounded wind_down s s');
      [ reflexivity
      | unfold wind_down; repeat constructor
      | vm_compute; reflexivity ]
  end.
Defined.

(** X13.  A closed pool winds down: a worker at its loop head takes one
    off currentThreads, removes its threadState entry and returns
    without calling Dequeue, and a monitor at its loop head returns
    without running its growth step and takes no further step. *)
Theorem X13_closed_pool_winds_down s :
  IsClosed (pool s) = true ->
  (forall tid,
     workers s !! tid = Some AtLoopHead ->
     exists s',
       run [WorkerStep tid; WorkerStep tid; WorkerStep tid] s = Some s' /\
       workers s' !! tid = Some Exited /\
       currentThreads (pool s') = Int32.decr (currentThreads (pool s)) /\
       threadState (pool s') = delete tid (threadState (pool s)) /\
       launched s' = launched s /\ error_queue s' = error_queue s /\
       forall r, sys_step (WorkerDequeue tid r) s' = None) /\
  (forall tid isEmpty,
     monitors s !! tid = Some MonLoopHead ->
     exists s',
       sys_step (MonitorStep tid isEmpty) s = Some s' /\
       monitors s' !! tid = Some MonExited /\
       pool s' = pool s /\ launched s' = launched s /\
       forall isEmpty', sys_step (MonitorStep tid isEmpty') s' = None).
Proof.
  unfold IsClosed. intros Hc. split.
  - intros tid Hpc. simpl. rewrite Hpc. simpl. unfold IsClosed. rewrite Hc.
    simpl. rewrite lookup_insert_eq. simpl. rewrite lookup_insert_eq. simpl.
    eexists. split; [reflexivity|]. simpl. rewrite lookup_insert_eq.
    split_and!; try done. by rewrite !app_nil_r.
  - intros tid e Hpc. simpl. rewrite Hpc. simpl. unfold IsClosed. rewrite Hc.
    eexists. split; [reflexivity|]. simpl. rewrite lookup_insert_eq.
    by split_and!.
Qed.

Lemma X13_closed_pool_winds_down_witness :
  exists s s',
    run close_while_monitor_waits (boot pool_1_1) = Some s /\
    workers s !! 1 = Some AtLoopHead /\
    run [WorkerStep 1; WorkerStep 1; WorkerStep 1] s = Some s' /\
    workers s' !! 1 = Some Exited /\
    currentThreads (pool s') = Int32.decr (currentThreads (pool s)).
Proof.
  eexists. eexists. split; [vm_compute; reflexivity|].
  split; [reflexivity|].
  match goal with
  | |- run _ ?s = Some ?s' /\ _ =>
      destruct (proj1 (X13_closed_pool_winds_down s eq_refl) 1 eq_refl)
        as (s1 & Hrun & Hexit & Hcur & _);
      assert (Hs1 : Some s' = Some s1)
        by (rewrite <- Hrun; vm_compute; reflexivity);
      injection Hs1 as ->; by split_and!
  end.
Defined.

(** ** The error queue *)

Lemma report_errors_sends_nothing p tid retVals :
  (report_errors p tid retVals).1 = [].
Proof.
  unfold report_errors. destruct (errorQueue p); [|done].
  destruct (0 <? Z.of_nat (length retVals)); [|done].
  apply scan_retVals_sends_nothing.
Qed.

Lemma threadRunner_step_sends_nothing tid pc p pc' p' sent :
  threadRunner_step tid pc p = Some (pc', p', sent) -> sent = [].
Proof.
  destruct pc; simpl; try discriminate; try (by intros [= <- <- <-]).
  - by destruct (currentThreads p >? minThreads p); intros [= <- <- <-].
  - pose proof (report_errors_sends_nothing p tid (invoke d)) as H.
    destruct (report_errors p tid (invoke d)). simpl in H.
    by intros [= <- <- <-].
Qed.

(** X14.  No execution ever enqueues anything on the error queue,
    whatever the user functions return and whether the pool has an
    error queue or not. *)
Theorem X14_error_queue_stays_empty s :
  reachable s -> error_queue s = [].
Proof.
  intros (nm & min & max & idle & fq & eq & p & tr & Hnew & Hrun).
  eapply (run_invariant (fun s => error_queue s = [])); [| |exact Hrun]; [|done].
  intros a s1 s2 Hnil Hstep.
  destruct Hstep as [| |tid pc pc' p' sent Hw Hs|tid r Hw
                    |tid e pc pc' p' sp Hm Hs];
    rewrite ?launch_all_error_queue; simpl; try done.
  apply threadRunner_step_sends_nothing in Hs as ->. by rewrite app_nil_r.
Qed.

Lemma X14_error_queue_stays_empty_witness :
  exists s, run user_error (boot pool_1_1) = Some s /\ error_queue s = [].
Proof.
  eexists. split; [vm_compute; reflexivity|].
  match goal with
  | |- error_queue ?s = [] =>
      assert (Hrun : run user_error (boot pool_1_1) = Some s)
        by (vm_compute; reflexivity);
      exact (X14_error_queue_stays_empty s
               (reachable_intro "pool" 1 1 0 fq0 eq0 pool_1_1 user_error s
                  eq_refl Hrun))
  end.
Defined.

(** ** Ranges *)

(** X15.  In every state of every execution GetCurrentThreadCount is an
    int32, every value in threadState is WAITING or RUNNING, minThreads
    is at least maxThreads and maxThreads at least 1, and the function
    queue is not nil. *)
Theorem X15_reachable_pools_are_well_formed s :
  reachable s ->
  Int32.in_range (GetCurrentThreadCount (pool s)) /\
  (forall tid st,
     threadState (pool s) !! tid = Some st -> st = WAITING \/ st = RUNNING) /\
  1 <= GetMaxThreads (pool s) <= GetMinThreads (pool s) /\
  GetFunctionQueue (pool s) <> None.
Proof.
  intros Hreach. pose proof (reachable_wf s Hreach) as [[Hcur Hst] _].
  destruct Hreach as (nm & min & max & idle & fq & eq & p & tr & Hnew & Hrun).
  apply run_config in Hrun as [_ Hmin Hmax _ Hfq _].
  apply NewThreadPool_inv in Hnew as (-> & ? & ? & ? & ?). simpl in *.
  unfold GetCurrentThreadCount, GetMaxThreads, GetMinThreads, GetFunctionQueue.
  rewrite Hmin, Hmax, Hfq. split_and!; try done; lia.
Qed.

Lemma X15_reachable_pools_are_well_formed_witness :
  exists s,
    run full_run (boot pool_1_1) = Some s /\
    Int32.in_range (GetCurrentThreadCount (pool s)) /\
    GetFunctionQueue (pool s) <> None.
Proof.
  eexists. split; [vm_compute; reflexivity|].
  match goal with
  | |- Int32.in_range (GetCurrentThreadCount (pool ?s)) /\ _ =>
      assert (Hrun : run full_run (boot pool_1_1) = Some s)
        by (vm_compute; reflexivity);
      destruct (X15_reachable_pools_are_well_formed s
                  (reachable_intro "pool" 1 1 0 fq0 eq0 pool_1_1 full_run s
                     eq_refl Hrun)) as (Hr & _ & _ & Hq);
      by split
  end.
Defined.

(** ** Induction over the reachable states *)

Lemma run_snoc tr a s :
  run (tr ++ [a]) s = s1 ← run tr s; sys_step a s1.
Proof.
  revert s. induction tr as [|b tr IH]; intros s; simpl.
  - by destruct (sys_step a s).
  - destruct (sys_step b s); simpl; [apply IH|done].
Qed.

Lemma reachable_step a s s' : reachable s -> step s a s' -> reachable s'.
Proof.
  intros (nm & min & max & idle & fq & eq & p & tr & Hnew & Hrun) Hstep.
  exists nm, min, max, idle, fq, eq, p, (tr ++ [a]). split; [done|].
  rewrite run_snoc, Hrun. simpl. by apply sys_step_complete.
Qed.

Lemma step_next_tid a s s' : step s a s' -> next_tid s <= next_tid s'.
Proof.
  destruct 1; rewrite ?launch_all_next_tid; simpl; lia.
Qed.

Lemma count_where_pos {A} (f : A -> bool) (m : gmap Z A) i x :
  m !! i = Some x -> f x = true -> 1 <= count_where f m.
Proof.
  intros Hi Hf. unfold count_where.
  assert (size (filter (fun kv : Z * A => f kv.2 = true) m) <> 0%nat).
  { apply map_size_ne_0_lookup. exists i, x. by apply map_lookup_filter_Some. }
  lia.
Qed.

(** With fewer than 2^31 - 1 launches the count is positive while a
    worker is in its loop, and far from both ends of the int32 range. *)
Lemma reachable_count_room s tid pc :
  reachable s -> next_tid s <= Int32.max_int ->
  0 <= currentThreads (pool s) < next_tid s /\
  (workers s !! tid = Some pc -> in_loop pc = true ->
   1 <= currentThreads (pool s)).
Proof.
  intros Hreach Hbound.
  destruct (reachable_count_inv s Hreach) as [Htid Hb].
  destruct (Hb Hbound) as [Hlo Hhi].
  pose proof (workers_launched_le s).
  pose proof (count_where_nonneg in_loop (workers s)).
  unfold workers_in_loop in *. split; [lia|].
  intros Hpc Hin. pose proof (count_where_pos in_loop _ _ _ Hpc Hin). lia.
Qed.

(** ** The floor *)

(** Only a worker that has read closed as true stands at the closed
    exit. *)
Lemma reachable_closed_exit s tid :
  reachable s -> workers s !! tid = Some AtClosedExit ->
  closed (pool s) = true.
Proof.
  intros (nm & min & max & idle & fq & eq & p & tr & Hnew & Hrun).
  revert tid.
  eapply (run_invariant (fun s => forall tid,
            workers s !! tid = Some AtClosedExit -> closed (pool s) = true));
    [| |exact Hrun].
  - intros a s1 s2 Hinv Hstep tid.
    assert (Hkeep : forall t, workers s1 !! t = Some AtClosedExit ->
                              closed (pool s2) = true).
    { intros t Ht. eapply step_closed; [exact Hstep|]. by eapply Hinv. }
    assert (Hlaunch : forall ts s0,
              workers (launch_all ts s0) !! tid = Some AtClosedExit ->
              workers s0 !! tid = Some AtClosedExit).
    { induction ts as [|t ts IH]; intros s0; [done|].
      rewrite launch_all_cons. intros H%IH. destruct t; simpl in H; [|done].
      rewrite lookup_insert in H. by case_decide. }
    destruct Hstep as [| |t pc pc' p' sent Hw Hs|t r Hw
                      |t e pc pc' p' sp Hm Hs].
    + intros H%Hlaunch. by eapply Hkeep.
    + done.
    + simpl. rewrite lookup_insert. case_decide; [|apply Hkeep].
      intros [= ->]. destruct pc; simpl in Hs; try discriminate.
      * destruct (IsClosed (pool s1)) eqn:Hc; [|discriminate].
        injection Hs as <- <-. exact Hc.
      * by destruct (currentThreads (pool s1) >? minThreads (pool s1)).
      * by destruct (report_errors (pool s1) t (invoke d)) as [? []].
    + simpl. rewrite lookup_insert. case_decide; [|apply Hkeep].
      by destruct r.
    + intros H%Hlaunch. by eapply Hkeep.
  - intros tid. simpl. by rewrite lookup_empty.
Qed.

Lemma step_floor a s s' :
  reachable s -> step s a s' -> next_tid s' <= Int32.max_int ->
  (started (pool s) = true -> closed (pool s) = false ->
   minThreads (pool s) <= currentThreads (pool s)) ->
  started (pool s') = true -> closed (pool s') = false ->
  minThreads (pool s') <= currentThreads (pool s').
Proof.
  intros Hreach Hstep Hbound Hinv Hst' Hcl'.
  pose proof (step_next_tid _ _ _ Hstep) as Hmono.
  pose proof (reachable_min_nonneg s Hreach) as Hmin.
  assert (Hb : next_tid s <= Int32.max_int) by lia.
  destruct (step_flags _ _ _ Hstep) as [Hst Hcl].
  rewrite Hcl' in Hcl. symmetry in Hcl. apply orb_false_iff in Hcl as [Hcl Ha].
  destruct Hstep as [| |tid pc pc' p' sent Hw Hs|tid r Hw
                    |tid e pc pc' p' sp Hm Hs]; try discriminate.
  - destruct (reachable_count_room s 0 AtLoopHead Hreach Hb) as [Hroom _].
    rewrite launch_all_next_tid in Hbound.
    rewrite launch_all_pool, Start_spec in *. simpl in *.
    rewrite length_app, length_replicate in Hbound. simpl in Hbound.
    rewrite iter_incr_no_wrap;
      unfold Int32.in_range, Int32.min_int, Int32.max_int in *; lia.
  - simpl in *. rewrite orb_false_r in Hst. rewrite Hst in Hst'.
    specialize (Hinv Hst' Hcl).
    destruct (reachable_count_room s tid pc Hreach Hb) as [Hroom _].
    destruct pc; simpl in Hs; try discriminate;
      try (by injection Hs as <- <- <-).
    + by rewrite (reachable_closed_exit s tid Hreach Hw) in Hcl.
    + destruct (Z.gtb_spec (currentThreads (pool s)) (minThreads (pool s)));
        injection Hs as <- <- <-; simpl; [|done].
      rewrite decr_above;
        unfold Int32.in_range, Int32.min_int, Int32.max_int in *; lia.
    + destruct (report_errors (pool s) tid (invoke d)).
      by injection Hs as <- <- <-.
  - simpl in *. auto.
  - rewrite launch_all_pool in *. simpl in *.
    rewrite orb_false_r in Hst. rewrite Hst in Hst'.
    specialize (Hinv Hst' Hcl).
    destruct (reachable_count_room s 0 AtLoopHead Hreach Hb) as [Hroom _].
    destruct pc; simpl in Hs; try discriminate;
      try (by injection Hs as <- <- <-).
    unfold monitorOnce in Hs.
    destruct e, (currentThreads (pool s) >? maxThreads (pool s)),
      (allBusy (threadState (pool s))); injection Hs as <- <- <-; simpl;
      try done.
    rewrite incr_below;
      unfold Int32.in_range, Int32.min_int, Int32.max_int in *; lia.
Qed.

Lemma run_next_tid tr : forall s s',
  run tr s = Some s' -> next_tid s <= next_tid s'.
Proof.
  induction tr as [|a tr IH]; intros s s'; simpl.
  - intros [= <-]. lia.
  - destruct (sys_step a s) as [s1|] eqn:E; [|done]. intros Hrun.
    apply sys_step_sound, step_next_tid in E. specialize (IH _ _ Hrun). lia.
Qed.

Lemma run_floor tr : forall s s',
  reachable s -> run tr s = Some s' -> next_tid s' <= Int32.max_int ->
  (started (pool s) = true -> closed (pool s) = false ->
   minThreads (pool s) <= currentThreads (pool s)) ->
  started (pool s') = true -> closed (pool s') = false ->
  minThreads (pool s') <= currentThreads (pool s').
Proof.
  induction tr as [|a tr IH]; intros s s' Hreach; simpl.
  - by intros [= <-].
  - destruct (sys_step a s) as [s1|] eqn:E; [|done].
    apply sys_step_sound in E. intros Hrun Hbound H0.
    pose proof (run_next_tid _ _ _ Hrun).
    apply (IH s1 s'); [by eapply reachable_step|done|done|].
    apply (step_floor a s s1); [done|done|lia|done].
Qed.

Lemma boot_reachable nm min max idle fq eq p :
  NewThreadPool nm min max idle fq eq = Ok p -> reachable (boot p).
Proof. intros Hnew. by eapply (reachable_intro _ _ _ _ _ _ _ []). Qed.

(** X16.  While the pool is started and not closed, and as long as
    fewer than 2^31 - 1 tasks have been launched, currentThreads is at
    least minThreads: the decay never goes below the floor and no other
    exit takes a thread off the count of an open pool. *)
Theorem X16_open_pool_stays_above_min s :
  reachable s -> next_tid s <= Int32.max_int ->
  IsStarted (pool s) = true -> IsClosed (pool s) = false ->
  GetMinThreads (pool s) <= GetCurrentThreadCount (pool s).
Proof.
  unfold IsStarted, IsClosed, GetMinThreads, GetCurrentThreadCount.
  intros (nm & min & max & idle & fq & eq & p & tr & Hnew & Hrun) Hbound.
  apply (run_floor tr (boot p) s); [by eapply boot_reachable|done|done|].
  apply NewThreadPool_inv in Hnew as [-> _]. done.
Qed.

Lemma X16_open_pool_stays_above_min_witness :
  exists s,
    run busy_then_grow (boot pool_1_1) = Some s /\
    GetMinThreads (pool s) <= GetCurrentThreadCount (pool s).
Proof.
  eexists. split; [vm_compute; reflexivity|].
  match goal with
  | |- GetMinThreads (pool ?s) <= _ =>
      assert (Hrun : run busy_then_grow (boot pool_1_1) = Some s)
        by (vm_compute; reflexivity);
      apply (X16_open_pool_stays_above_min s
               (reachable_intro "pool" 1 1 0 fq0 eq0 pool_1_1 busy_then_grow s
                  eq_refl Hrun));
      [ vm_compute; discriminate | reflexivity | reflexivity ]
  end.
Defined.

(** ** The ceiling, as the code keeps it *)

Lemma step_ceiling a s s' :
  reachable s -> step s a s' -> next_tid s' <= Int32.max_int ->
  (is_start a = true -> started (pool s) = false) ->
  currentThreads (pool s) <=
    Z.max (minThreads (pool s)) (maxThreads (pool s) + 1) ->
  currentThreads (pool s') <=
    Z.max (minThreads (pool s')) (maxThreads (pool s') + 1).
Proof.
  intros Hreach Hstep Hbound Hfirst Hle.
  pose proof (step_next_tid _ _ _ Hstep) as Hmono.
  assert (Hb : next_tid s <= Int32.max_int) by lia.
  destruct (step_config _ _ _ Hstep) as [_ Hmin Hmax _ _ _].
  rewrite Hmin, Hmax. clear Hmin Hmax.
  pose proof (reachable_min_nonneg s Hreach) as Hmin.
  destruct Hstep as [| |tid pc pc' p' sent Hw Hs|tid r Hw
                    |tid e pc pc' p' sp Hm Hs].
  - destruct (reachable_untouched s Hreach (Hfirst eq_refl)) as [_ _ _ Hc _ _].
    destruct (reachable_count_room s 0 AtLoopHead Hreach Hb) as [Hroom _].
    rewrite launch_all_next_tid in Hbound.
    rewrite launch_all_pool, Start_spec in *. simpl in *.
    rewrite length_app, length_replicate in Hbound. simpl in Hbound.
    rewrite iter_incr_no_wrap;
      unfold Int32.in_range, Int32.min_int, Int32.max_int in *; lia.
  - done.
  - simpl.
    destruct (reachable_count_room s tid pc Hreach Hb) as [Hroom Hpos].
    destruct (threadRunner_step_count _ _ _ _ _ _ Hs)
      as [[-> _] | (-> & Hin & _)]; [done|].
    specialize (Hpos Hw Hin).
    rewrite decr_above;
      unfold Int32.in_range, Int32.min_int, Int32.max_int in *; lia.
  - done.
  - rewrite launch_all_pool. simpl.
    destruct (reachable_count_room s 0 AtLoopHead Hreach Hb) as [Hroom _].
    destruct pc; simpl in Hs; try discriminate;
      try (by injection Hs as <- <- <-).
    unfold monitorOnce in Hs. destruct e; [by injection Hs as <- <- <-|].
    destruct (Z.gtb_spec (currentThreads (pool s)) (maxThreads (pool s)));
      [by injection Hs as <- <- <-|].
    destruct (allBusy (threadState (pool s))); injection Hs as <- <- <-;
      [|done].
    simpl. rewrite incr_below;
      unfold Int32.in_range, Int32.min_int, Int32.max_int in *; lia.
Qed.

Lemma run_ceiling tr : forall s s',
  reachable s -> run tr s = Some s' -> next_tid s' <= Int32.max_int ->
  (length (filter (fun a => is_start a = true) tr)
   <= if started (pool s) then 0 else 1)%nat ->
  currentThreads (pool s) <=
    Z.max (minThreads (pool s)) (maxThreads (pool s) + 1) ->
  currentThreads (pool s') <=
    Z.max (minThreads (pool s')) (maxThreads (pool s') + 1).
Proof.
  induction tr as [|a tr IH]; intros s s' Hreach; simpl.
  - by intros [= <-].
  - destruct (sys_step a s) as [s1|] eqn:E; [|done].
    apply sys_step_sound in E. intros Hrun Hbound Hstarts Hle.
    pose proof (run_next_tid _ _ _ Hrun).
    destruct (step_flags _ _ _ E) as [Hst _].
    rewrite filter_cons in Hstarts.
    apply (IH s1 s'); [by eapply reachable_step|done|done| |].
    + rewrite Hst. destruct (is_start a) eqn:Ha.
      * rewrite decide_True in Hstarts by done. rewrite orb_true_r.
        simpl in Hstarts. destruct (started (pool s)); lia.
      * rewrite decide_False in Hstarts by done. by rewrite orb_false_r.
    + apply (step_ceiling a s s1); [done|done|lia| |done].
      intros Ha. rewrite decide_True in Hstarts by done. simpl in Hstarts.
      destruct (started (pool s)); [lia|done].
Qed.

(** X17.  In an execution with at most one call of Start, and as long
    as fewer than 2^31 - 1 tasks have been launched, currentThreads
    never exceeds the larger of minThreads and maxThreads + 1: the
    growth step passes the ceiling by one at most. *)
Theorem X17_one_Start_keeps_the_count_bounded nm min max idle fq eq p tr s :
  NewThreadPool nm min max idle fq eq = Ok p ->
  run tr (boot p) = Some s ->
  next_tid s <= Int32.max_int ->
  (length (filter (fun a => is_start a = true) tr) <= 1)%nat ->
  GetCurrentThreadCount (pool s) <=
    Z.max (GetMinThreads (pool s)) (GetMaxThreads (pool s) + 1).
Proof.
  unfold GetCurrentThreadCount, GetMinThreads, GetMaxThreads.
  intros Hnew Hrun Hbound Hstarts.
  apply (run_ceiling tr (boot p) s); [by eapply boot_reachable|done|done| |].
  - apply NewThreadPool_inv in Hnew as [-> _]. done.
  - apply NewThreadPool_inv in Hnew as (-> & ? & ? & ? & ?). simpl. lia.
Qed.

Lemma X17_one_Start_keeps_the_count_bounded_witness :
  exists s,
    run busy_then_grow (boot pool_1_1) = Some s /\
    GetCurrentThreadCount (pool s) <=
      Z.max (GetMinThreads (pool s)) (GetMaxThreads (pool s) + 1).
Proof.
  eexists. split; [vm_compute; reflexivity|].
  match goal with
  | |- GetCurrentThreadCount (pool ?s) <= _ =>
      apply (X17_one_Start_keeps_the_count_bounded "pool" 1 1 0 fq0 eq0
               pool_1_1 busy_then_grow s eq_refl);
      [ vm_compute; reflexivity | vm_compute; discriminate
      | vm_compute; lia ]
  end.
Defined.
